(** * musicbot/lib/event_emitter.py: the EventEmitter class

    A shallow embedding of [EventEmitter] (registry of callbacks per event
    name, synchronous and asynchronous dispatch, in-flight task pool) and the
    properties its specification states about it.

    Python objects that the class handles by reference are given handles:
    a function object is [Fn f], the closure that [once] builds is
    [CallbackOff k event callback] with [k] the allocation number of the
    closure, a task is its position in the list of tasks created on the loop.
    [list.remove] and [in] compare callbacks with [==], which on function
    objects is identity: here, equality of handles. *)

From stdpp Require Import base decidable option list strings gmap sets.

(** ** Values, exceptions, callbacks *)

(** Exceptions.  The first five are instances of [Exception]: [ValueError]
    is what [list.remove] raises, [TypeError] what a call raises when the
    arguments do not fit the signature and what [create_task] raises on an
    argument that is not a coroutine, [AttributeError] what reading a missing
    [__name__] raises, [RuntimeError] what a closed loop raises, [UserError n]
    any other [Exception] a callback raises.  The last four derive from
    [BaseException] only. *)
Inductive exn :=
  | ValueError
  | TypeError
  | AttributeError
  | RuntimeError
  | UserError (n : nat)
  | CancelledError
  | SystemExit
  | KeyboardInterrupt
  | UserBaseException (n : nat).

(** [isinstance(e, Exception)] *)
Definition is_Exception (e : exn) : bool :=
  match e with
  | CancelledError | SystemExit | KeyboardInterrupt | UserBaseException _ => false
  | _ => true
  end.

Inductive callback :=
  | Fn (f : nat)
  | CallbackOff (k : nat) (event : string) (callback : callback).

#[global] Instance exn_eq_dec : EqDecision exn.
Proof. solve_decision. Defined.

#[global] Instance callback_eq_dec : EqDecision callback.
Proof.
  refine (fix go (x y : callback) {struct x} : Decision (x = y) :=
    match x, y with
    | Fn f, Fn g => cast_if (decide (f = g))
    | CallbackOff k e c, CallbackOff k' e' c' =>
        cast_if_and3 (decide (k = k')) (decide (e = e')) (go c c')
    | _, _ => right _
    end); abstract congruence.
Defined.

(** Python values that cross the emitter's interface. [VSelf] is the emitter
    object itself, [VCoro f args] the coroutine object that calling the
    coroutine function [f] on [args] builds. *)
#[local] Unset Elimination Schemes.
Inductive val :=
  | VNone
  | VSelf
  | VInt (z : Z)
  | VStr (s : string)
  | VCoro (f : nat) (args : list val).
#[local] Set Elimination Schemes.

(** The outcome of a call: a returned value or a raised exception. *)
Inductive res (X : Type) :=
  | Ret (x : X)
  | Raise (e : exn).
Arguments Ret {X} x.
Arguments Raise {X} e.

(** What a callback body does with the emitter: the calls it makes on it, in
    order.  A body that re-enters [emit] is outside this model. *)
Inductive stmt :=
  | CallOn (event : string) (cb : callback)
  | CallOff (event : string) (cb : callback)
  | CallOnce (event : string) (cb : callback).

(** A function object: [fn_name] is its [__name__] when it has one (a
    [functools.partial] has none), [fn_async] what
    [asyncio.iscoroutinefunction] answers, [fn_accepts] whether the arguments
    fit the signature, [fn_body] the emitter calls of the body and
    [fn_result] how the body ends once they all returned. *)
Record fn := {
  fn_name : option string;
  fn_async : bool;
  fn_accepts : list val → bool;
  fn_body : list val → list stmt;
  fn_result : list val → res val;
}.

(** ** The event loop

    A task is pending, finished with a result or an exception, or
    cancelled.  [ready] holds the calls that [call_soon] queued, oldest
    first: a done-callback with the task it is called with. *)

Inductive done_callback :=
  | PoolDiscard.  (* self._task_pool.discard *)

Inductive task_state :=
  | Pending
  | Finished (r : res val)
  | Cancelled.

Record task := {
  task_name : string;
  task_fn : nat;
  task_args : list val;
  task_callbacks : list done_callback;
  task_st : task_state;
  task_collected : bool;
}.

Record event_loop := {
  tasks : list task;
  ready : list (done_callback * nat);
  closed : bool;
}.

(** ** The emitter and its environment *)

Record EventEmitter := {
  class_name : string;                     (* type(self).__name__ *)
  _events : gmap string (list callback);   (* defaultdict(list) *)
  loop : event_loop;                       (* self.loop *)
  _task_pool : gset nat;
}.

(** What the emitter's code lets one observe: [Invoke] is the call
    [cb(args)] that [emit] evaluates, [Delegate] the call
    [callback(args)] that the closure of [once] evaluates, [Run] the
    start of a function body. *)
Inductive obs :=
  | Invoke (cb : callback) (args : list val)
  | Delegate (w cb : callback) (args : list val)
  | Run (f : nat) (args : list val).

Record world := {
  self : EventEmitter;
  closures : nat;           (* closures allocated so far *)
  stderr : list exn;        (* tracebacks printed by traceback.print_exc() *)
  asyncio_log : list exn;   (* exceptions asyncio reported as never retrieved *)
  trace : list obs;
}.

Definition set_events (g : gmap string (list callback) → gmap string (list callback))
    (w : world) : world :=
  {| self := {| class_name := class_name (self w); _events := g (_events (self w));
                loop := loop (self w); _task_pool := _task_pool (self w) |};
     closures := closures w; stderr := stderr w; asyncio_log := asyncio_log w;
     trace := trace w |}.

Definition set_loop (g : event_loop → event_loop) (w : world) : world :=
  {| self := {| class_name := class_name (self w); _events := _events (self w);
                loop := g (loop (self w)); _task_pool := _task_pool (self w) |};
     closures := closures w; stderr := stderr w; asyncio_log := asyncio_log w;
     trace := trace w |}.

Definition set_task_pool (g : gset nat → gset nat) (w : world) : world :=
  {| self := {| class_name := class_name (self w); _events := _events (self w);
                loop := loop (self w); _task_pool := g (_task_pool (self w)) |};
     closures := closures w; stderr := stderr w; asyncio_log := asyncio_log w;
     trace := trace w |}.

Definition alloc_closure (w : world) : world :=
  {| self := self w; closures := S (closures w); stderr := stderr w;
     asyncio_log := asyncio_log w; trace := trace w |}.

Definition print_exc (e : exn) (w : world) : world :=
  {| self := self w; closures := closures w; stderr := stderr w ++ [e];
     asyncio_log := asyncio_log w; trace := trace w |}.

Definition report (e : exn) (w : world) : world :=
  {| self := self w; closures := closures w; stderr := stderr w;
     asyncio_log := asyncio_log w ++ [e]; trace := trace w |}.

Definition record (o : obs) (w : world) : world :=
  {| self := self w; closures := closures w; stderr := stderr w;
     asyncio_log := asyncio_log w; trace := trace w ++ [o] |}.

Definition set_tasks (g : list task → list task) (lp : event_loop) : event_loop :=
  {| tasks := g (tasks lp); ready := ready lp; closed := closed lp |}.

Definition set_ready (g : list (done_callback * nat) → list (done_callback * nat))
    (lp : event_loop) : event_loop :=
  {| tasks := tasks lp; ready := g (ready lp); closed := closed lp |}.

(** [EventEmitter.__init__], with a loop that is open and has no task of
    this emitter. *)
Definition new (cls : string) : world :=
  {| self := {| class_name := cls; _events := ∅;
                loop := {| tasks := []; ready := []; closed := false |};
                _task_pool := ∅ |};
     closures := 0; stderr := []; asyncio_log := []; trace := [] |}.

(** ** Computations: state passing with exceptions *)

Definition M (X : Type) : Type := world → res X * world.

Definition ret {X} (x : X) : M X := λ w, (Ret x, w).
Definition raise {X} (e : exn) : M X := λ w, (Raise e, w).
Definition bind {X Y} (m : M X) (k : X → M Y) : M Y :=
  λ w, match m w with
       | (Ret x, w') => k x w'
       | (Raise e, w') => (Raise e, w')
       end.
Definition modify (g : world → world) : M unit := λ w, (Ret tt, g w).
Definition get : M world := λ w, (Ret w, w).

(** [try: m except Exception: traceback.print_exc()]: an exception that is
    not an instance of [Exception] goes through. *)
Definition try_print_exc (m : M unit) : M unit :=
  λ w, match m w with
       | (Ret _, w') => (Ret tt, w')
       | (Raise e, w') =>
           if is_Exception e then (Ret tt, print_exc e w') else (Raise e, w')
       end.

Notation "'do' x <- m ; k" := (bind m (λ x, k))
  (at level 10, x name, m at level 100, k at level 200).
Notation "m ;> k" := (bind m (λ _, k))
  (at level 100, k at level 200, right associativity).

(** ** Registry operations *)

(** The list found at [self._events[event]]; the defaultdict gives an empty
    list for a missing key. *)
Definition registered (w : world) (event : string) : list callback :=
  default [] (_events (self w) !! event).

(** [list.remove]: drop the first item equal to [cb]; [None] stands for the
    [ValueError] of an absent item. *)
Fixpoint remove (cb : callback) (l : list callback) : option (list callback) :=
  match l with
  | [] => None
  | x :: l' => if decide (x = cb) then Some l' else cons x <$> remove cb l'
  end.

(** [on]: [self._events[event].append(callback); return self] *)
Definition on (event : string) (cb : callback) : M val :=
  do w <- get;
  modify (set_events <[event := registered w event ++ [cb]]>) ;>
  ret VSelf.

(** [off]: reading [self._events[event]] creates the entry when it is
    missing, before [remove] raises. *)
Definition off (event : string) (cb : callback) : M val :=
  do w <- get;
  let l := registered w event in
  modify (set_events <[event := l]>) ;>
  match remove cb l with
  | None => raise ValueError
  | Some l' =>
      modify (set_events <[event := l']>) ;>
      (if bool_decide (l' = []) then modify (set_events (delete event)) else ret tt) ;>
      ret VSelf
  end.

(** [once]: the closure [callback_off] is a new function object each time. *)
Definition once (event : string) (cb : callback) : M val :=
  do w <- get;
  let callback_off := CallbackOff (closures w) event cb in
  modify alloc_closure ;>
  on event callback_off.

(** ** Calling callbacks *)

Definition exec (s : stmt) : M val :=
  match s with
  | CallOn event cb => on event cb
  | CallOff event cb => off event cb
  | CallOnce event cb => once event cb
  end.

Fixpoint exec_all (b : list stmt) : M unit :=
  match b with
  | [] => ret tt
  | s :: b' => exec s ;> exec_all b'
  end.

Fixpoint for_each {X} (l : list X) (body : X → M unit) : M unit :=
  match l with
  | [] => ret tt
  | x :: l' => body x ;> for_each l' body
  end.

Section Emitter.

(** The function objects the program defines. *)
Variable fns : nat → fn.

(** A function body runs: its emitter calls in order, the first that
    raises ends it, then its own result. *)
Definition run_body (f : nat) (args : list val) : M val :=
  modify (record (Run f args)) ;>
  exec_all (fn_body (fns f) args) ;>
  (λ w, (fn_result (fns f) args, w)).

(** [cb(args)]: the arguments are bound first; calling a coroutine function
    then only builds the coroutine object; the closure of [once] takes any
    arguments and is [self.off(event, callback_off); return callback(args)]. *)
Fixpoint call (cb : callback) (args : list val) : M val :=
  match cb with
  | Fn f =>
      if fn_accepts (fns f) args then
        if fn_async (fns f) then ret (VCoro f args) else run_body f args
      else raise TypeError
  | CallbackOff _ event callback =>
      off event cb ;>
      modify (record (Delegate cb callback args)) ;>
      call callback args
  end.

Definition iscoroutinefunction (cb : callback) : bool :=
  match cb with
  | Fn f => fn_async (fns f)
  | CallbackOff _ _ _ => false
  end.

(** [cb.__name__] *)
Definition __name__ (cb : callback) : M string :=
  match cb with
  | Fn f =>
      match fn_name (fns f) with
      | Some name => ret name
      | None => raise AttributeError
      end
  | CallbackOff _ _ _ => ret "callback_off"
  end.

(** [loop.create_task(coro, name=...)]: a closed loop refuses, and so does
    the task on anything but a coroutine; the new task is appended to the
    loop's tasks and its handle returned. *)
Definition create_task (coro : val) (name : string) : M nat :=
  do w <- get;
  if closed (loop (self w)) then raise RuntimeError
  else
    match coro with
    | VCoro f args =>
        modify (set_loop (set_tasks (λ l,
          l ++ [{| task_name := name; task_fn := f; task_args := args;
                   task_callbacks := []; task_st := Pending;
                   task_collected := false |}]))) ;>
        ret (length (tasks (loop (self w))))
    | _ => raise TypeError
    end.

Definition add_callback (c : done_callback) (tk : task) : task :=
  {| task_name := task_name tk; task_fn := task_fn tk; task_args := task_args tk;
     task_callbacks := task_callbacks tk ++ [c]; task_st := task_st tk;
     task_collected := task_collected tk |}.

Definition add_done_callback (t : nat) (c : done_callback) : M unit :=
  modify (set_loop (set_tasks (alter (add_callback c) t))).

(** The call expression of [emit]'s loop. *)
Definition invoke (cb : callback) (args : list val) : M val :=
  modify (record (Invoke cb args)) ;>
  call cb args.

(** The body of [emit]'s loop, lines 35 to 49. *)
Definition dispatch (args : list val) (cb : callback) : M unit :=
  try_print_exc
    (if iscoroutinefunction cb then
       do coro <- invoke cb args;
       do w <- get;
       do name <- __name__ cb;
       do t <- create_task coro ("MB_EE_" +:+ class_name (self w) +:+ "_" +:+ name);
       modify (set_task_pool (λ p, p ∪ {[t]})) ;>
       add_done_callback t PoolDiscard
     else
       invoke cb args ;> ret tt).

(** [emit]: the list bound by the match is the copy [list(self._events[event])]. *)
Definition emit (event : string) (args : list val) : M val :=
  do w <- get;
  match _events (self w) !! event with
  | None => ret VNone
  | Some snapshot => for_each snapshot (dispatch args) ;> ret VNone
  end.

(** ** What the loop does with a task

    As asyncio does it.  A pending task runs: its outcome is kept in the
    task (a [CancelledError] leaves it cancelled), its done-callbacks are
    handed to [call_soon] and its own list of them emptied;
    [KeyboardInterrupt] and [SystemExit] are kept and raised again out of the
    loop.  A later turn of the loop makes the queued call.  A finished task
    that nothing refers to any more is collected, and one whose exception was
    never retrieved is then reported to the loop's exception handler.
    Closing the loop drops the queued calls.  The body is run in one step:
    what other tasks do between its awaits is not modelled. *)
Definition run_done_callback (t : nat) (c : done_callback) : M unit :=
  match c with
  | PoolDiscard => modify (set_task_pool (λ p, p ∖ {[t]}))
  end.

Definition settle (r : res val) : task_state :=
  match r with
  | Raise CancelledError => Cancelled
  | _ => Finished r
  end.

Definition leaves_loop (r : res val) : res unit :=
  match r with
  | Raise KeyboardInterrupt => Raise KeyboardInterrupt
  | Raise SystemExit => Raise SystemExit
  | _ => Ret tt
  end.

Definition done_task (r : res val) (tk : task) : task :=
  {| task_name := task_name tk; task_fn := task_fn tk; task_args := task_args tk;
     task_callbacks := []; task_st := settle r;
     task_collected := task_collected tk |}.

Definition finish (t : nat) (r : res val) (lp : event_loop) : event_loop :=
  match tasks lp !! t with
  | Some tk =>
      {| tasks := <[t := done_task r tk]> (tasks lp);
         ready := ready lp ++ map (λ c, (c, t)) (task_callbacks tk);
         closed := closed lp |}
  | None => lp
  end.

Definition run_task (t : nat) : M unit :=
  do w <- get;
  if closed (loop (self w)) then ret tt
  else
    match tasks (loop (self w)) !! t with
    | Some tk =>
        match task_st tk with
        | Pending =>
            λ w, let '(r, w') := run_body (task_fn tk) (task_args tk) w in
                 (leaves_loop r, set_loop (finish t r) w')
        | _ => ret tt
        end
    | None => ret tt
    end.

Definition loop_turn : M unit :=
  do w <- get;
  match ready (loop (self w)) with
  | [] => ret tt
  | (c, t) :: rest =>
      modify (set_loop (set_ready (λ _, rest))) ;>
      run_done_callback t c
  end.

Definition close_loop : M unit :=
  modify (set_loop (λ lp, {| tasks := tasks lp; ready := []; closed := true |})).

Definition mark_collected (tk : task) : task :=
  {| task_name := task_name tk; task_fn := task_fn tk; task_args := task_args tk;
     task_callbacks := task_callbacks tk; task_st := task_st tk;
     task_collected := true |}.

(** Nothing refers to the task [t] any more. *)
Definition unreferenced (w : world) (t : nat) : bool :=
  bool_decide (t ∉ _task_pool (self w)) &&
  bool_decide (t ∉ (snd <$> ready (loop (self w)))).

Definition collect (t : nat) : M unit :=
  do w <- get;
  match tasks (loop (self w)) !! t with
  | Some tk =>
      match task_st tk with
      | Pending => ret tt
      | st =>
          if unreferenced w t && negb (task_collected tk) then
            modify (set_loop (set_tasks (alter mark_collected t))) ;>
            match st with
            | Finished (Raise e) => modify (report e)
            | _ => ret tt
            end
          else ret tt
      end
  | None => ret tt
  end.

End Emitter.

(** ** Reachable states

    Calls made on the emitter from outside its callbacks, and what the loop
    and the interpreter do on their own. *)
Inductive action :=
  | DoOn (event : string) (cb : callback)
  | DoOff (event : string) (cb : callback)
  | DoOnce (event : string) (cb : callback)
  | DoEmit (event : string) (args : list val)
  | LoopRuns (t : nat)
  | LoopTurn
  | LoopCloses
  | Collects (t : nat).

Definition perform (fns : nat → fn) (a : action) (w : world) : world :=
  match a with
  | DoOn event cb => snd (on event cb w)
  | DoOff event cb => snd (off event cb w)
  | DoOnce event cb => snd (once event cb w)
  | DoEmit event args => snd (emit fns event args w)
  | LoopRuns t => snd (run_task fns t w)
  | LoopTurn => snd (loop_turn w)
  | LoopCloses => snd (close_loop w)
  | Collects t => snd (collect t w)
  end.

Inductive reachable (fns : nat → fn) : world → Prop :=
  | reachable_new cls : reachable fns (new cls)
  | reachable_step a w : reachable fns w → reachable fns (perform fns a w).

(** ** Observations on the trace *)

(** The calls made by [emit] itself, in order. *)
Fixpoint invokes (tr : list obs) : list (callback * list val) :=
  match tr with
  | [] => []
  | Invoke cb args :: tr' => (cb, args) :: invokes tr'
  | _ :: tr' => invokes tr'
  end.

(** How many times the emitter's code called [cb]. *)
Fixpoint calls_of (cb : callback) (tr : list obs) : nat :=
  match tr with
  | [] => 0
  | Invoke c _ :: tr' => (if decide (c = cb) then 1 else 0) + calls_of cb tr'
  | Delegate _ c _ :: tr' => (if decide (c = cb) then 1 else 0) + calls_of cb tr'
  | Run _ _ :: tr' => calls_of cb tr'
  end.

(** How many times the closure [x] called the callback it wraps. *)
Fixpoint delegations (x : callback) (tr : list obs) : nat :=
  match tr with
  | [] => 0
  | Delegate c _ _ :: tr' => (if decide (c = x) then 1 else 0) + delegations x tr'
  | _ :: tr' => delegations x tr'
  end.

(** How many times the body of [f] started. *)
Fixpoint runs_of (f : nat) (tr : list obs) : nat :=
  match tr with
  | [] => 0
  | Run g _ :: tr' => (if decide (g = f) then 1 else 0) + runs_of f tr'
  | _ :: tr' => runs_of f tr'
  end.

(** The tasks of the loop that have not finished. *)
Definition pending (w : world) (t : nat) : Prop :=
  ∃ tk, tasks (loop (self w)) !! t = Some tk ∧ task_st tk = Pending.

(** ** A sample program

    [0] returns at once, [1] is a coroutine function whose body raises, [2]
    raises, [3] takes [0] off the event ["ready"], [4] raises
    [CancelledError], [5] takes [0] off ["ready"] and then raises
    [SystemExit], [6] is a coroutine function without parameters, [7] a
    coroutine function without [__name__]; any other is like [0]. *)
Definition sample (f : nat) : fn :=
  match f with
  | 1 => {| fn_name := Some "fetch"; fn_async := true; fn_accepts := λ _, true;
            fn_body := λ _, []; fn_result := λ _, Raise (UserError 7) |}
  | 2 => {| fn_name := Some "boom"; fn_async := false; fn_accepts := λ _, true;
            fn_body := λ _, []; fn_result := λ _, Raise (UserError 3) |}
  | 3 => {| fn_name := Some "unhook"; fn_async := false; fn_accepts := λ _, true;
            fn_body := λ _, [CallOff "ready" (Fn 0)]; fn_result := λ _, Ret VNone |}
  | 4 => {| fn_name := Some "stop"; fn_async := false; fn_accepts := λ _, true;
            fn_body := λ _, []; fn_result := λ _, Raise CancelledError |}
  | 5 => {| fn_name := Some "quit"; fn_async := false; fn_accepts := λ _, true;
            fn_body := λ _, [CallOff "ready" (Fn 0)];
            fn_result := λ _, Raise SystemExit |}
  | 6 => {| fn_name := Some "tick"; fn_async := true;
            fn_accepts := λ args, bool_decide (length args = 0);
            fn_body := λ _, []; fn_result := λ _, Ret VNone |}
  | 7 => {| fn_name := None; fn_async := true; fn_accepts := λ _, true;
            fn_body := λ _, []; fn_result := λ _, Ret VNone |}
  | _ => {| fn_name := Some "greet"; fn_async := false; fn_accepts := λ _, true;
            fn_body := λ _, []; fn_result := λ _, Ret VNone |}
  end.

(** The program [fns] with the body of [g] making no call on the emitter. *)
Definition quiet (fns : nat → fn) (g : nat) (f : nat) : fn :=
  if decide (f = g) then
    {| fn_name := fn_name (fns f); fn_async := fn_async (fns f);
       fn_accepts := fn_accepts (fns f); fn_body := λ _, [];
       fn_result := fn_result (fns f) |}
  else fns f.

(** The world after the calls [acts] on a new emitter. *)
Definition after (fns : nat → fn) (acts : list action) : world :=
  foldl (λ w a, perform fns a w) (new "EventEmitter") acts.

(** ** Notions on programs and worlds *)

(** Every exception a function of the program ends with is an instance of
    [Exception]. *)
Definition exception_only (fns : nat → fn) : Prop :=
  ∀ f args e, fn_result (fns f) args = Raise e → is_Exception e = true.

(** Two programs that differ at most in the calls their functions make on
    the emitter. *)
Definition same_but_bodies (fns fns' : nat → fn) : Prop :=
  ∀ f, fn_name (fns f) = fn_name (fns' f) ∧
       fn_async (fns f) = fn_async (fns' f) ∧
       (∀ args, fn_accepts (fns f) args = fn_accepts (fns' f) args) ∧
       (∀ args, fn_result (fns f) args = fn_result (fns' f) args).

(** No event of the registry has an empty list. *)
Definition no_empty_lists (w : world) : Prop :=
  ∀ event l, _events (self w) !! event = Some l → l ≠ [].

(** The world after [on(event, cb)] for each [cb] of [cbs], in order. *)
Definition on_each (event : string) (cbs : list callback) (w : world) : world :=
  foldl (λ w cb, snd (on event cb w)) w cbs.

(** [x] is [c] or is wrapped somewhere inside the closure [c]. *)
Fixpoint occurs (x c : callback) : bool :=
  if decide (c = x) then true
  else match c with
       | Fn _ => false
       | CallbackOff _ _ c' => occurs x c'
       end.

Definition stmt_callback (s : stmt) : callback :=
  match s with
  | CallOn _ cb | CallOff _ cb | CallOnce _ cb => cb
  end.

(** No function body of the program refers to [x]. *)
Definition unknown_to (fns : nat → fn) (x : callback) : Prop :=
  ∀ f args s, s ∈ fn_body (fns f) args → occurs x (stmt_callback s) = false.

(** [x] is nowhere in the registry. *)
Definition absent (x : callback) (w : world) : Prop :=
  ∀ event l c, _events (self w) !! event = Some l → c ∈ l → occurs x c = false.

(** How deep the closures of [c] are nested. *)
Fixpoint depth (c : callback) : nat :=
  match c with
  | Fn _ => 0
  | CallbackOff _ _ c' => S (depth c')
  end.

(** How many times [x] is in the list [l]. *)
Fixpoint occurrences (x : callback) (l : list callback) : nat :=
  match l with
  | [] => 0
  | c :: l' => (if decide (c = x) then 1 else 0) + occurrences x l'
  end.

(** [x], the closure number [k], is at most what it is in the registry: every
    registered callback is [x] itself or has nothing of [x] inside, and the
    closures still to be built get a number after [k]. *)
Definition guarded (x : callback) (k : nat) (w : world) : Prop :=
  k < closures w ∧
  ∀ event c, c ∈ registered w event → c = x ∨ occurs x c = false.

(** Going from [w] to [w'] left [x] where it was in the registry and made
    [x] call nothing. *)
Definition keeps (x : callback) (w w' : world) : Prop :=
  (∀ event, occurrences x (registered w' event) = occurrences x (registered w event)) ∧
  delegations x (trace w') = delegations x (trace w).

(** Running [m] does so. *)
Definition harmless (x : callback) (k : nat) {X} (m : M X) : Prop :=
  ∀ w, guarded x k w → guarded x k (snd (m w)) ∧ keeps x w (snd (m w)).

(** The coroutine function that [emit] gets a task for when it reaches
    [cb] with [args]: one whose signature takes [args] and that has a
    [__name__]. *)
Definition schedulable (fns : nat → fn) (args : list val) (cb : callback) : option nat :=
  match cb with
  | Fn f =>
      if fn_async (fns f) && fn_accepts (fns f) args && bool_decide (is_Some (fn_name (fns f)))
      then Some f else None
  | CallbackOff _ _ _ => None
  end.

(** The task of lines 39 to 44 for the coroutine function [f]: named after
    the emitter's class and the function, pending, with the pool's discard as
    its only hook. *)
Definition task_for (fns : nat → fn) (cls : string) (args : list val) (f : nat) : task :=
  {| task_name := "MB_EE_" +:+ cls +:+ "_" +:+ default "" (fn_name (fns f));
     task_fn := f; task_args := args;
     task_callbacks := [PoolDiscard]; task_st := Pending;
     task_collected := false |}.

(** The tasks that a pass over [l] creates on the loop of [w]: none when the
    loop is closed. *)
Definition new_tasks (fns : nat → fn) (args : list val) (l : list callback) (w : world)
    : list task :=
  if closed (loop (self w)) then []
  else map (task_for fns (class_name (self w)) args) (omap (schedulable fns args) l).

(** How many callbacks of [l] a pass of [emit] calls from the world [w]: it
    stops after the first whose exception leaves [dispatch]. *)
Fixpoint called (fns : nat → fn) (args : list val) (l : list callback) (w : world) : nat :=
  match l with
  | [] => 0
  | cb :: l' =>
      match dispatch fns args cb w with
      | (Ret _, w') => S (called fns args l' w')
      | (Raise _, _) => 1
      end
  end.

(** ** The task pool against the loop

    [pool_covers_pending]: every task that has not finished is in the pool;
    [pool_entries_known]: what is in the pool is a task of the loop that has
    not finished, or whose discard is queued, or the loop is closed;
    [discard_on_done]: a pending task carries the discard as its hook;
    [queued_are_done]: a discard is queued only for a task that has
    finished. *)
Definition discard_queued (w : world) (t : nat) : Prop :=
  (PoolDiscard, t) ∈ ready (loop (self w)).

Definition pool_covers_pending (w : world) : Prop :=
  ∀ t, pending w t → t ∈ _task_pool (self w).

Definition pool_entries_known (w : world) : Prop :=
  ∀ t, t ∈ _task_pool (self w) →
       t < length (tasks (loop (self w))) ∧
       (pending w t ∨ discard_queued w t ∨ closed (loop (self w)) = true).

Definition discard_on_done (w : world) : Prop :=
  ∀ t tk, tasks (loop (self w)) !! t = Some tk → task_st tk = Pending →
          task_callbacks tk = [PoolDiscard].

Definition queued_are_done (w : world) : Prop :=
  ∀ t, discard_queued w t →
       ∃ tk, tasks (loop (self w)) !! t = Some tk ∧ task_st tk ≠ Pending.

Definition tracked (w : world) : Prop :=
  pool_covers_pending w ∧ pool_entries_known w ∧ discard_on_done w ∧
  queued_are_done w.

(** ** The specification's sentences, as they are written *)


(** "What a callback does to the registry during the pass does not change
    which callbacks the pass calls." *)
Definition pass_blind_to_mutation : Prop :=
  ∀ fns fns' event args w,
    same_but_bodies fns fns' →
    invokes (trace (snd (emit fns event args w))) =
    invokes (trace (snd (emit fns' event args w))).

(** "Whatever a synchronous callback raises is caught and printed, and
    nothing reaches the caller of [emit]." *)
Definition sync_failures_caught (fns : nat → fn) : Prop :=
  ∀ event args w l1 cb l2 e,
    _events (self w) !! event = Some (l1 ++ cb :: l2) →
    iscoroutinefunction fns cb = false →
    fst (for_each l1 (dispatch fns args) w) = Ret tt →
    fst (invoke fns cb args (snd (for_each l1 (dispatch fns args) w))) = Raise e →
    fst (emit fns event args w) = Ret VNone ∧ e ∈ stderr (snd (emit fns event args w)).

(** "[once(E, cb)] followed by two [emit(E)] calls [cb] exactly once." *)
Definition once_then_two_emits_call_once (fns : nat → fn) : Prop :=
  ∀ event cb a1 a2 w,
    calls_of cb
      (trace (snd (emit fns event a2 (snd (emit fns event a1 (snd (once event cb w))))))) =
    calls_of cb (trace w) + 1.

(** "The exception of a failed task is printed by the emitter": every task
    that finished with an exception and has been collected has that
    exception on [stderr]. *)
Definition task_failures_printed (fns : nat → fn) : Prop :=
  ∀ w t tk e,
    reachable fns w → tasks (loop (self w)) !! t = Some tk →
    task_st tk = Finished (Raise e) → task_collected tk = true → e ∈ stderr w.

(** "A task is in the pool exactly while it has not completed." *)
Definition pool_is_the_pending_set (fns : nat → fn) : Prop :=
  ∀ w t, reachable fns w → (t ∈ _task_pool (self w) ↔ pending w t).

(** ** Parts of the world

    [stable π m]: running [m] does not change the part [π] of the world,
    whether [m] returns or raises; [inert π g] is the same for a plain
    update. *)
Section Parts.
Context {T : Type} (π : world → T).

Definition inert (g : world → world) : Prop := ∀ w, π (g w) = π w.
Definition stable {X} (m : M X) : Prop := ∀ w, π (snd (m w)) = π w.

(** Parts that the registry operations and the callbacks' own code do not
    touch. *)
Record registry_free : Prop := {
  free_events : ∀ g, inert (set_events g);
  free_alloc : inert alloc_closure;
  free_run : ∀ f args, inert (record (Run f args));
  free_delegate : ∀ w cb args, inert (record (Delegate w cb args));
}.
End Parts.

(** * Properties *)
(** ** [list.remove] *)

Lemma remove_None cb l : remove cb l = None ↔ cb ∉ l.
Proof.
  induction l as [|x l IH]; simpl.
  - split; [intros _; apply not_elem_of_nil | done].
  - destruct (decide (x = cb)) as [->|Hne].
    + split; [done | intros H; exfalso; apply H; left].
    + rewrite fmap_None, IH, not_elem_of_cons. naive_solver.
Qed.

Lemma remove_Some cb l l' :
  remove cb l = Some l' ↔ ∃ l1 l2, l = l1 ++ cb :: l2 ∧ (cb ∉ l1) ∧ l' = l1 ++ l2.
Proof.
  revert l'. induction l as [|x l IH]; intros l'; simpl.
  - split; [done | intros (l1 & l2 & H & _); by destruct l1].
  - destruct (decide (x = cb)) as [->|Hne].
    + split.
      * intros [= <-]. exists [], l. split_and!; [done | apply not_elem_of_nil | done].
      * intros (l1 & l2 & H & Hn & ->). destruct l1 as [|y l1]; simpl in *.
        -- by injection H as ->.
        -- injection H as -> _. exfalso. apply Hn. left.
    + rewrite fmap_Some. split.
      * intros (l0 & H0 & ->). apply IH in H0 as (l1 & l2 & -> & Hn & ->).
        exists (x :: l1), l2. split_and!; [done | | done].
        rewrite not_elem_of_cons. done.
      * intros (l1 & l2 & H & Hn & ->). destruct l1 as [|y l1]; simpl in *.
        -- injection H as -> _. done.
        -- injection H as -> ->. exists (l1 ++ l2). split; [|done].
           apply IH. exists l1, l2. rewrite not_elem_of_cons in Hn. naive_solver.
Qed.

Lemma remove_is_Some cb l : cb ∈ l → is_Some (remove cb l).
Proof.
  intros H. destruct (remove cb l) eqn:E; [by eexists|].
  apply remove_None in E. done.
Qed.

(** ** What a computation leaves alone *)
Section Stable.
Context {T : Type} (π : world → T).

Lemma stable_ret {X} (x : X) : stable π (ret x).
Proof. done. Qed.

Lemma stable_raise {X} e : stable π (@raise X e).
Proof. done. Qed.

Lemma stable_get : stable π get.
Proof. done. Qed.

Lemma stable_modify g : inert π g → stable π (modify g).
Proof. intros H w. apply H. Qed.

Lemma stable_bind {X Y} (m : M X) (k : X → M Y) :
  stable π m → (∀ x, stable π (k x)) → stable π (bind m k).
Proof.
  intros Hm Hk w. unfold bind. specialize (Hm w).
  destruct (m w) as [[x|e] w1]; simpl in *; [|done].
  by rewrite Hk.
Qed.

Lemma stable_for_each {X} (l : list X) body :
  (∀ x, stable π (body x)) → stable π (for_each l body).
Proof.
  intros H. induction l as [|x l IH]; simpl; [apply stable_ret|].
  apply stable_bind; auto.
Qed.

Lemma stable_try m : (∀ e, inert π (print_exc e)) → stable π m → stable π (try_print_exc m).
Proof.
  intros Hp Hm w. unfold try_print_exc. specialize (Hm w).
  destruct (m w) as [[x|e] w1]; simpl in *; [done|].
  destruct (is_Exception e); simpl; [by rewrite Hp | done].
Qed.

Hypothesis Hfree : registry_free π.

Lemma stable_set_events g : stable π (modify (set_events g)).
Proof. exact (stable_modify _ (free_events π Hfree g)). Qed.

Lemma stable_record_run f args : stable π (modify (record (Run f args))).
Proof. exact (stable_modify _ (free_run π Hfree f args)). Qed.

Lemma stable_record_delegate w cb args : stable π (modify (record (Delegate w cb args))).
Proof. exact (stable_modify _ (free_delegate π Hfree w cb args)). Qed.

Lemma stable_alloc_closure : stable π (modify alloc_closure).
Proof. exact (stable_modify _ (free_alloc π Hfree)). Qed.

Lemma stable_on event cb : stable π (on event cb).
Proof.
  unfold on. apply stable_bind; [apply stable_get|intros w0].
  apply stable_bind; [apply stable_set_events|intros _; apply stable_ret].
Qed.

Lemma stable_off event cb : stable π (off event cb).
Proof.
  unfold off.
  apply stable_bind; [apply stable_get|intros w0].
  apply stable_bind; [apply stable_set_events|intros _].
  destruct (remove cb (registered w0 event)); [|apply stable_raise].
  apply stable_bind; [apply stable_set_events|intros _].
  apply stable_bind; [|intros _; apply stable_ret].
  case_bool_decide; [apply stable_set_events | apply stable_ret].
Qed.

Lemma stable_once event cb : stable π (once event cb).
Proof.
  unfold once.
  apply stable_bind; [apply stable_get|intros w0].
  apply stable_bind; [apply stable_alloc_closure|intros _].
  apply stable_on.
Qed.

Lemma stable_exec s : stable π (exec s).
Proof. destruct s; [apply stable_on | apply stable_off | apply stable_once]. Qed.

Lemma stable_exec_all b : stable π (exec_all b).
Proof.
  induction b as [|s b IH]; simpl; [apply stable_ret|].
  apply stable_bind; [apply stable_exec | done].
Qed.

Lemma stable_run_body fns f args : stable π (run_body fns f args).
Proof.
  unfold run_body.
  apply stable_bind; [apply stable_record_run|intros _].
  apply stable_bind; [apply stable_exec_all|intros _]. done.
Qed.

Lemma stable_call fns cb args : stable π (call fns cb args).
Proof.
  induction cb as [f|k event cb IH]; simpl.
  - destruct (fn_accepts (fns f) args); [|apply stable_raise].
  destruct (fn_async (fns f)); [apply stable_ret | apply stable_run_body].
  - apply stable_bind; [apply stable_off|intros _].
    apply stable_bind; [apply stable_record_delegate|intros _]. done.
Qed.
End Stable.

Lemma free_loop : registry_free (λ w, loop (self w)).
Proof. by split. Qed.

Lemma free_task_pool : registry_free (λ w, _task_pool (self w)).
Proof. by split. Qed.

Lemma free_stderr : registry_free stderr.
Proof. by split. Qed.

Lemma free_class_name : registry_free (λ w, class_name (self w)).
Proof. by split. Qed.

Lemma invokes_app tr tr' : invokes (tr ++ tr') = invokes tr ++ invokes tr'.
Proof.
  induction tr as [|[] tr IH]; simpl; [done| |done|done]. by rewrite IH.
Qed.

Lemma runs_of_app f tr tr' : runs_of f (tr ++ tr') = runs_of f tr + runs_of f tr'.
Proof.
  induction tr as [|[] tr IH]; simpl; [done|done|done|]. rewrite IH. lia.
Qed.

Lemma calls_of_app cb tr tr' : calls_of cb (tr ++ tr') = calls_of cb tr + calls_of cb tr'.
Proof.
  induction tr as [|[] tr IH]; simpl; [done| | |done]; rewrite IH; lia.
Qed.

Lemma free_invokes : registry_free (λ w, invokes (trace w)).
Proof.
  split; try done; intros; intros w0; simpl; rewrite invokes_app; simpl; apply app_nil_r.
Qed.

(** ** [off] *)

Lemma off_None event cb w :
  remove cb (registered w event) = None →
  off event cb w = (Raise ValueError, set_events <[event := registered w event]> w).
Proof. intros H. unfold off, bind, get, modify, raise. simpl. by rewrite H. Qed.

Lemma off_Some event cb w l' :
  remove cb (registered w event) = Some l' →
  off event cb w =
    (Ret VSelf,
     set_events (if bool_decide (l' = []) then delete event else <[event := l']>) w).
Proof.
  intros H. unfold off, bind, get, modify, ret. simpl. rewrite H.
  case_bool_decide; simpl; f_equal; unfold set_events; simpl;
    by rewrite ?delete_insert_eq, ?insert_insert_eq.
Qed.

Lemma registered_nil_of_None w event :
  _events (self w) !! event = None → registered w event = [].
Proof. unfold registered. by intros ->. Qed.

(** C5: [off(E, cb)] raises its not-found error (the [ValueError] of
    [list.remove]) if and only if [E] is not a registered event or [cb] is not
    in [E]'s list; it raises nothing else, and the error is the outcome of the
    call itself: whatever the caller would have done next is skipped and the
    caller ends with that error. *)
Theorem off_raises_iff_absent event cb w :
  (fst (off event cb w) = Raise ValueError ↔
     _events (self w) !! event = None ∨ cb ∉ registered w event) ∧
  (∀ e, fst (off event cb w) = Raise e → e = ValueError) ∧
  (∀ X (k : val → M X),
     fst (off event cb w) = Raise ValueError →
     bind (off event cb) k w = (Raise ValueError, snd (off event cb w))).
Proof.
  destruct (remove cb (registered w event)) as [l'|] eqn:E.
  - rewrite (off_Some _ _ _ _ E). simpl. split_and!; [|done|done].
    split; [done|]. intros [H|H].
    + apply registered_nil_of_None in H. rewrite H in E. done.
    + apply remove_None in H. congruence.
  - rewrite (off_None _ _ _ E). simpl. split_and!.
    + split; [|done]. intros _. right. by apply remove_None.
    + by intros e [= <-].
    + intros X k _. unfold bind. by rewrite (off_None _ _ _ E).
Qed.

Lemma off_raises_iff_absent_witness :
  fst (off "skip" (Fn 0) (new "EventEmitter")) = Raise ValueError.
Proof.
  apply (off_raises_iff_absent "skip" (Fn 0) (new "EventEmitter")).
  left. reflexivity.
Defined.

(** C6: when [E]'s list contains [cb], [off(E, cb)] removes the first
    occurrence of [cb] and nothing else (what was before and after it keeps
    its order), deletes the key [E] exactly when the list becomes empty,
    leaves the other events, the loop and the task pool alone, and returns the
    emitter. *)
Theorem off_removes_first_occurrence event cb w :
  cb ∈ registered w event →
  ∃ l1 l2,
    registered w event = l1 ++ cb :: l2 ∧ (cb ∉ l1) ∧
    fst (off event cb w) = Ret VSelf ∧
    _events (self (snd (off event cb w))) !! event =
      (if decide (l1 ++ l2 = []) then None else Some (l1 ++ l2)) ∧
    (∀ e', e' ≠ event →
       _events (self (snd (off event cb w))) !! e' = _events (self w) !! e') ∧
    loop (self (snd (off event cb w))) = loop (self w) ∧
    _task_pool (self (snd (off event cb w))) = _task_pool (self w).
Proof.
  intros Hin. destruct (remove_is_Some _ _ Hin) as [l' E].
  pose proof E as (l1 & l2 & Hl & Hn & ->)%remove_Some.
  exists l1, l2. rewrite (off_Some _ _ _ _ E). simpl.
  split_and!; try done.
  - case_bool_decide; case_decide; try done.
    + apply lookup_delete_eq.
    + apply lookup_insert_eq.
  - intros e' Hne. case_bool_decide.
    + by apply lookup_delete_ne.
    + by apply lookup_insert_ne.
Qed.

Lemma off_removes_first_occurrence_witness :
  ∃ l1 l2,
    registered (snd (on "play" (Fn 1) (new "EventEmitter"))) "play" = l1 ++ Fn 1 :: l2 ∧
    (Fn 1 ∉ l1) ∧
    fst (off "play" (Fn 1) (snd (on "play" (Fn 1) (new "EventEmitter")))) = Ret VSelf ∧
    _events (self (snd (off "play" (Fn 1) (snd (on "play" (Fn 1) (new "EventEmitter"))))))
      !! "play" = (if decide (l1 ++ l2 = []) then None else Some (l1 ++ l2)) ∧
    (∀ e', e' ≠ "play" →
       _events (self (snd (off "play" (Fn 1) (snd (on "play" (Fn 1) (new "EventEmitter"))))))
         !! e' = _events (self (snd (on "play" (Fn 1) (new "EventEmitter")))) !! e') ∧
    loop (self (snd (off "play" (Fn 1) (snd (on "play" (Fn 1) (new "EventEmitter"))))))
      = loop (self (snd (on "play" (Fn 1) (new "EventEmitter")))) ∧
    _task_pool (self (snd (off "play" (Fn 1) (snd (on "play" (Fn 1) (new "EventEmitter"))))))
      = _task_pool (self (snd (on "play" (Fn 1) (new "EventEmitter")))).
Proof.
  apply (off_removes_first_occurrence "play" (Fn 1)
           (snd (on "play" (Fn 1) (new "EventEmitter")))).
  vm_compute. left.
Defined.

(** C2, at the input where the code departs from it: [off] on an event that
    was never registered raises, and the entry that reading
    [self._events[event]] created stays in the registry with an empty list. *)
Theorem failed_off_leaves_empty_list fns cls event cb :
  fst (off event cb (new cls)) = Raise ValueError ∧
  reachable fns (perform fns (DoOff event cb) (new cls)) ∧
  _events (self (perform fns (DoOff event cb) (new cls))) !! event = Some [].
Proof.
  split_and!.
  - done.
  - apply reachable_step, reachable_new.
  - simpl. apply lookup_insert_eq.
Qed.


(** ** [once] and [on], unfolded *)

Lemma once_unfold event cb w :
  once event cb w =
    (Ret VSelf,
     set_events <[event := registered w event ++ [CallbackOff (closures w) event cb]]>
       (alloc_closure w)).
Proof. done. Qed.

Lemma registered_set_events g w event :
  registered (set_events g w) event = default [] (g (_events (self w)) !! event).
Proof. done. Qed.

(** * Further properties of the registry *)

Lemma remove_snoc cb l : cb ∉ l → remove cb (l ++ [cb]) = Some l.
Proof.
  induction l as [|x l IH]; simpl; intros Hn.
  - by rewrite decide_True.
  - apply not_elem_of_cons in Hn as [Hne Hn].
    rewrite decide_False by done. by rewrite IH.
Qed.

Lemma remove_app_l cb l l' l2 :
  remove cb l = Some l' → remove cb (l ++ l2) = Some (l' ++ l2).
Proof.
  revert l'. induction l as [|x l IH]; simpl; intros l' H; [done|].
  destruct (decide (x = cb)); [by injection H as <-|].
  destruct (remove cb l) as [l0|]; [|done]. injection H as <-.
  by rewrite (IH l0).
Qed.

Lemma callback_off_neq cb k event : cb ≠ CallbackOff k event cb.
Proof.
  revert k event. induction cb as [f|k' event' cb IH]; intros k event; [done|].
  intros [= _ _ H]. by apply (IH k' event').
Qed.

Lemma world_eta w :
  {| self := {| class_name := class_name (self w); _events := _events (self w);
                loop := loop (self w); _task_pool := _task_pool (self w) |};
     closures := closures w; stderr := stderr w; asyncio_log := asyncio_log w;
     trace := trace w |} = w.
Proof. by destruct w as [[] ? ? ? ?]. Qed.

Lemma on_unfold event cb w :
  on event cb w = (Ret VSelf, set_events <[event := registered w event ++ [cb]]> w).
Proof. done. Qed.

Lemma registered_on event cb w e' :
  registered (snd (on event cb w)) e' =
    if decide (event = e') then registered w event ++ [cb] else registered w e'.
Proof.
  rewrite on_unfold. simpl. rewrite registered_set_events. case_decide as H.
  - subst. by rewrite lookup_insert_eq.
  - by rewrite lookup_insert_ne.
Qed.

(** X2: [off(E, cb)] right after [on(E, cb)] puts the world back exactly as
    it was, provided [cb] was not already in [E]'s list and [E] was not
    left with an empty list. *)
Theorem on_then_off_restores event cb w :
  cb ∉ registered w event →
  _events (self w) !! event ≠ Some [] →
  off event cb (snd (on event cb w)) = (Ret VSelf, w).
Proof.
  intros Hn Hne.
  assert (E : remove cb (registered (snd (on event cb w)) event) = Some (registered w event)).
  { rewrite registered_on, decide_True by done. by apply remove_snoc. }
  rewrite (off_Some _ _ _ _ E), on_unfold. f_equal.
  unfold set_events. simpl.
  assert (Hev : (if bool_decide (registered w event = [])
                 then delete event else <[event:=registered w event]>)
                  (<[event:=registered w event ++ [cb]]> (_events (self w))) =
                _events (self w)).
  { unfold registered. destruct (_events (self w) !! event) as [l|] eqn:Hl; simpl.
    - case_bool_decide as Hb; [by subst|]. by rewrite insert_insert_eq, insert_id.
    - try rewrite bool_decide_true by done. by rewrite delete_insert_eq, delete_id. }
  rewrite Hev. apply world_eta.
Qed.

Lemma on_then_off_restores_witness :
  (Fn 0 ∉ registered (new "EventEmitter") "ready") ∧
  off "ready" (Fn 0) (snd (on "ready" (Fn 0) (new "EventEmitter"))) =
    (Ret VSelf, new "EventEmitter").
Proof.
  split; [apply not_elem_of_nil|].
  apply (on_then_off_restores "ready" (Fn 0) (new "EventEmitter")).
  - apply not_elem_of_nil.
  - vm_compute. discriminate.
Defined.

Lemma set_events_insert_id event l w :
  _events (self w) !! event = Some l → set_events <[event := l]> w = w.
Proof. intros H. unfold set_events. rewrite (insert_id _ _ _ H). apply world_eta. Qed.

Lemma registered_Some event l w :
  _events (self w) !! event = Some l → registered w event = l.
Proof. unfold registered. by intros ->. Qed.

(** X3: when [cb] is already in [E]'s list, [on(E, cb)] followed by
    [off(E, cb)] is not a round trip: the earlier occurrence is the one
    removed and the new one stays at the end of the list. *)
Theorem on_then_off_moves_to_end event cb w l1 l2 :
  registered w event = l1 ++ cb :: l2 → cb ∉ l1 →
  fst (off event cb (snd (on event cb w))) = Ret VSelf ∧
  registered (snd (off event cb (snd (on event cb w)))) event = l1 ++ l2 ++ [cb].
Proof.
  intros Hreg Hn.
  assert (E : remove cb (registered (snd (on event cb w)) event) = Some ((l1 ++ l2) ++ [cb])).
  { rewrite registered_on, decide_True by done. apply remove_app_l.
    apply remove_Some. exists l1, l2. by rewrite Hreg. }
  rewrite (off_Some _ _ _ _ E). simpl. split; [done|].
  rewrite bool_decide_false by (by destruct l1, l2).
  rewrite registered_set_events, lookup_insert_eq. simpl. by rewrite <- app_assoc.
Qed.

Lemma on_then_off_moves_to_end_witness :
  registered (on_each "ready" [Fn 0; Fn 2] (new "EventEmitter")) "ready" =
    [] ++ Fn 0 :: [Fn 2] ∧
  registered
    (snd (off "ready" (Fn 0)
            (snd (on "ready" (Fn 0) (on_each "ready" [Fn 0; Fn 2] (new "EventEmitter"))))))
    "ready" = [Fn 2; Fn 0].
Proof.
  split; [reflexivity|].
  apply (on_then_off_moves_to_end "ready" (Fn 0)
           (on_each "ready" [Fn 0; Fn 2] (new "EventEmitter")) [] [Fn 2]).
  - reflexivity.
  - apply not_elem_of_nil.
Defined.

(** X4: [off(E, cb)] does not undo [once(E, cb)]: what [once] put in the
    list is its closure, not [cb], so when [cb] itself is not in the list
    [off(E, cb)] raises and the closure stays registered. *)
Theorem once_is_not_undone_by_off event cb w :
  cb ∉ registered w event →
  off event cb (snd (once event cb w)) = (Raise ValueError, snd (once event cb w)) ∧
  registered (snd (once event cb w)) event =
    registered w event ++ [CallbackOff (closures w) event cb].
Proof.
  intros Hn.
  assert (Hev : _events (self (snd (once event cb w))) !! event =
                Some (registered w event ++ [CallbackOff (closures w) event cb])).
  { rewrite once_unfold. simpl. apply lookup_insert_eq. }
  pose proof (registered_Some _ _ _ Hev) as Hreg. split; [|done].
  rewrite off_None.
  - by rewrite Hreg, (set_events_insert_id _ _ _ Hev).
  - apply remove_None. rewrite Hreg, not_elem_of_app, not_elem_of_cons.
    split_and!; [done | apply callback_off_neq | apply not_elem_of_nil].
Qed.

Lemma once_is_not_undone_by_off_witness :
  (Fn 0 ∉ registered (new "EventEmitter") "ready") ∧
  fst (off "ready" (Fn 0) (snd (once "ready" (Fn 0) (new "EventEmitter")))) =
    Raise ValueError.
Proof.
  split; [apply not_elem_of_nil|].
  pose proof (once_is_not_undone_by_off "ready" (Fn 0) (new "EventEmitter")
                (not_elem_of_nil _)) as [H _].
  by rewrite H.
Defined.

(** X5: a failing [off] on an event that is registered changes nothing: when
    [E] has a list and [cb] is not in it, [off(E, cb)] raises and the world is
    exactly as before. *)
Theorem failed_off_on_registered_event event cb l w :
  _events (self w) !! event = Some l → cb ∉ l →
  off event cb w = (Raise ValueError, w).
Proof.
  intros Hev Hn. pose proof (registered_Some _ _ _ Hev) as Hreg.
  rewrite off_None.
  - by rewrite Hreg, (set_events_insert_id _ _ _ Hev).
  - apply remove_None. by rewrite Hreg.
Qed.

Lemma failed_off_on_registered_event_witness :
  _events (self (on_each "ready" [Fn 0] (new "EventEmitter"))) !! "ready" = Some [Fn 0] ∧
  off "ready" (Fn 2) (on_each "ready" [Fn 0] (new "EventEmitter")) =
    (Raise ValueError, on_each "ready" [Fn 0] (new "EventEmitter")).
Proof.
  split; [reflexivity|].
  apply (failed_off_on_registered_event "ready" (Fn 2) [Fn 0]); [reflexivity|].
  apply not_elem_of_cons. split; [discriminate | apply not_elem_of_nil].
Defined.

(** X6: the registry calls keep lists non-empty but for one case: from a
    world where no event has an empty list, [on] and [once] lead to such a
    world, and so does [off] whenever it returns and whenever the event was
    registered.  Only [off] on an event that is not registered can leave an
    empty list. *)
Theorem registry_calls_keep_lists_nonempty event cb w :
  no_empty_lists w →
  no_empty_lists (snd (on event cb w)) ∧
  no_empty_lists (snd (once event cb w)) ∧
  (is_Some (_events (self w) !! event) → no_empty_lists (snd (off event cb w))) ∧
  (∀ v, fst (off event cb w) = Ret v → no_empty_lists (snd (off event cb w))).
Proof.
  intros Hw.
  assert (Hins : ∀ (m : gmap string (list callback)) l,
            (∀ e l0, m !! e = Some l0 → l0 ≠ []) → l ≠ [] →
            ∀ e l0, <[event := l]> m !! e = Some l0 → l0 ≠ []).
  { intros m l Hm Hl e l0. destruct (decide (event = e)) as [<-|Hne].
    - rewrite lookup_insert_eq. by intros [= <-].
    - rewrite lookup_insert_ne by done. apply Hm. }
  split_and!.
  - rewrite on_unfold. unfold no_empty_lists. simpl.
    apply Hins; [apply Hw | by destruct (registered w event)].
  - rewrite once_unfold. unfold no_empty_lists. simpl.
    apply Hins; [apply Hw | by destruct (registered w event)].
  - intros [l Hev]. destruct (remove cb (registered w event)) as [l'|] eqn:E.
    + rewrite (off_Some _ _ _ _ E). case_bool_decide as Hb.
      * intros e l0. simpl. destruct (decide (event = e)) as [<-|Hne].
        -- by rewrite lookup_delete_eq.
        -- rewrite lookup_delete_ne by done. apply Hw.
      * unfold no_empty_lists. simpl. by apply Hins; [apply Hw|].
    + rewrite (off_None _ _ _ E). simpl.
      rewrite (registered_Some _ _ _ Hev), (set_events_insert_id _ _ _ Hev). done.
  - intros v. destruct (remove cb (registered w event)) as [l'|] eqn:E.
    + rewrite (off_Some _ _ _ _ E). intros _. case_bool_decide as Hb.
      * intros e l0. simpl. destruct (decide (event = e)) as [<-|Hne].
        -- by rewrite lookup_delete_eq.
        -- rewrite lookup_delete_ne by done. apply Hw.
      * unfold no_empty_lists. simpl. by apply Hins; [apply Hw|].
    + by rewrite (off_None _ _ _ E).
Qed.

Lemma registry_calls_keep_lists_nonempty_witness :
  no_empty_lists (new "EventEmitter") ∧
  no_empty_lists (snd (once "ready" (Fn 0) (new "EventEmitter"))).
Proof.
  assert (H : no_empty_lists (new "EventEmitter")) by (intros e l; done).
  split; [exact H|].
  apply (registry_calls_keep_lists_nonempty "ready" (Fn 0) (new "EventEmitter") H).
Defined.


(** ** One turn of [emit]'s loop *)

Create HintDb stable.
#[local] Hint Resolve stable_ret stable_raise stable_get stable_bind stable_for_each
  stable_on stable_off stable_once stable_exec stable_exec_all stable_run_body stable_call
  free_loop free_task_pool free_stderr free_class_name free_invokes : stable.
#[local] Hint Extern 2 (stable _ (modify _)) =>
  apply stable_modify; intros ?; reflexivity : stable.

Lemma snd_bind_stable {T X Y} (π : world → T) (m : M X) (k : X → M Y) w :
  (∀ x, stable π (k x)) → π (snd (bind m k w)) = π (snd (m w)).
Proof.
  intros Hk. unfold bind. destruct (m w) as [[x|e] w1]; simpl; [apply Hk | done].
Qed.

Lemma stable_name {T} (π : world → T) fns cb : stable π (__name__ fns cb).
Proof.
  destruct cb as [f|]; simpl; [|apply stable_ret].
  destruct (fn_name (fns f)); [apply stable_ret | apply stable_raise].
Qed.

Lemma stable_create_task {T} (π : world → T) coro name :
  (∀ g, inert π (set_loop g)) → stable π (create_task coro name).
Proof.
  intros H. unfold create_task.
  apply stable_bind; [apply stable_get|intros w0].
  destruct (closed (loop (self w0))); [apply stable_raise|].
  destruct coro; try apply stable_raise.
  apply stable_bind; [|intros _; apply stable_ret].
  apply stable_modify, H.
Qed.

(** What follows the call in the asynchronous branch only touches the loop
    and the task pool. *)
Lemma stable_schedule {T} (π : world → T) fns cb coro :
  (∀ g, inert π (set_loop g)) → (∀ g, inert π (set_task_pool g)) →
  stable π
    (do w <- get;
     do name <- __name__ fns cb;
     do t <- create_task coro ("MB_EE_" +:+ class_name (self w) +:+ "_" +:+ name);
     modify (set_task_pool (λ p, p ∪ {[t]})) ;>
     add_done_callback t PoolDiscard).
Proof.
  intros Hl Hp.
  apply stable_bind; [apply stable_get|intros w0].
  apply stable_bind; [apply stable_name|intros name].
  apply stable_bind; [by apply stable_create_task|intros t].
  apply stable_bind; [apply stable_modify, Hp|intros _].
  apply stable_modify, Hl.
Qed.

Lemma invoke_invokes fns cb args w :
  invokes (trace (snd (invoke fns cb args w))) = invokes (trace w) ++ [(cb, args)].
Proof.
  unfold invoke, bind, modify. simpl.
  rewrite (stable_call (λ w, invokes (trace w)) free_invokes). simpl.
  by rewrite invokes_app.
Qed.

Lemma invoke_stable {T} (π : world → T) fns cb args :
  registry_free π → inert π (record (Invoke cb args)) → stable π (invoke fns cb args).
Proof.
  intros Hf Hi. unfold invoke.
  apply stable_bind; [by apply stable_modify|intros _]. by apply stable_call.
Qed.

(** The synchronous branch: the call, and the handler when it raises. *)
Lemma dispatch_sync fns args cb w :
  iscoroutinefunction fns cb = false →
  dispatch fns args cb w =
    match invoke fns cb args w with
    | (Ret _, w') => (Ret tt, w')
    | (Raise e, w') =>
        if is_Exception e then (Ret tt, print_exc e w') else (Raise e, w')
    end.
Proof.
  intros H. unfold dispatch, try_print_exc, bind. rewrite H.
  by destruct (invoke fns cb args w) as [[] ?].
Qed.

(** The asynchronous branch, case by case: the arguments do not fit, the
    function has no name, the loop is closed, or the task is created. *)
Lemma dispatch_async fns args f w :
  fn_async (fns f) = true →
  dispatch fns args (Fn f) w =
    let w1 := record (Invoke (Fn f) args) w in
    if fn_accepts (fns f) args then
      match fn_name (fns f) with
      | Some name =>
          if closed (loop (self w)) then (Ret tt, print_exc RuntimeError w1)
          else
            (Ret tt,
             set_loop (set_tasks (λ l, l ++ [task_for fns (class_name (self w)) args f]))
               (set_task_pool (λ p, p ∪ {[length (tasks (loop (self w)))]}) w1))
      | None => (Ret tt, print_exc AttributeError w1)
      end
    else (Ret tt, print_exc TypeError w1).
Proof.
  intros H. unfold dispatch, try_print_exc, invoke, bind, modify, get. simpl.
  rewrite H. simpl. destruct (fn_accepts (fns f) args); [|done]. simpl.
  unfold task_for. destruct (fn_name (fns f)) as [name|]; [|done]. simpl.
  unfold create_task, bind, get. simpl.
  destruct (closed (loop (self w))); [done|]. simpl.
  unfold set_loop, set_tasks, set_task_pool. simpl. do 4 f_equal.
  rewrite alter_app_r_alt by lia. by rewrite Nat.sub_diag.
Qed.

Lemma iscoroutinefunction_Fn fns cb :
  iscoroutinefunction fns cb = true → ∃ f, cb = Fn f ∧ fn_async (fns f) = true.
Proof. destruct cb as [f|]; [|done]. intros H. by exists f. Qed.

Lemma dispatch_async_returns fns args cb w :
  iscoroutinefunction fns cb = true → fst (dispatch fns args cb w) = Ret tt.
Proof.
  intros (f & -> & Ha)%iscoroutinefunction_Fn. rewrite dispatch_async by done. simpl.
  destruct (fn_accepts (fns f) args); [|done].
  destruct (fn_name (fns f)); [|done]. by destruct (closed (loop (self w))).
Qed.

Lemma dispatch_invokes fns args cb w :
  invokes (trace (snd (dispatch fns args cb w))) = invokes (trace w) ++ [(cb, args)].
Proof.
  destruct (iscoroutinefunction fns cb) eqn:Hco.
  - apply iscoroutinefunction_Fn in Hco as (f & -> & Ha).
    rewrite dispatch_async by done. simpl.
    destruct (fn_accepts (fns f) args); [|simpl; by rewrite invokes_app].
    destruct (fn_name (fns f)); [|simpl; by rewrite invokes_app].
    destruct (closed (loop (self w))); simpl; by rewrite invokes_app.
  - rewrite dispatch_sync by done. rewrite <- invoke_invokes with (fns := fns).
    destruct (invoke fns cb args w) as [[v|e] w1]; [done|].
    by destruct (is_Exception e).
Qed.

(** What leaves [dispatch] comes from the call of a synchronous callback and
    is not an instance of [Exception]; nothing was printed. *)
Lemma dispatch_raises fns args cb w e :
  fst (dispatch fns args cb w) = Raise e →
  iscoroutinefunction fns cb = false ∧ is_Exception e = false ∧
  invoke fns cb args w = (Raise e, snd (dispatch fns args cb w)).
Proof.
  destruct (iscoroutinefunction fns cb) eqn:Hco.
  - rewrite dispatch_async_returns by done. done.
  - rewrite dispatch_sync by done.
    destruct (invoke fns cb args w) as [[v|e'] w1]; [done|].
    destruct (is_Exception e') eqn:He; [done|]. simpl. by intros [= <-].
Qed.

Lemma dispatch_stderr fns args cb w :
  stderr w `prefix_of` stderr (snd (dispatch fns args cb w)).
Proof.
  destruct (iscoroutinefunction fns cb) eqn:Hco.
  - apply iscoroutinefunction_Fn in Hco as (f & -> & Ha).
    rewrite dispatch_async by done. simpl.
    destruct (fn_accepts (fns f) args); [|by apply prefix_app_r].
    destruct (fn_name (fns f)); [|by apply prefix_app_r].
    destruct (closed (loop (self w))); [by apply prefix_app_r | done].
  - rewrite dispatch_sync by done.
    assert (Hs : stable stderr (invoke fns cb args))
      by (by apply invoke_stable; auto with stable).
    specialize (Hs w).
    destruct (invoke fns cb args w) as [[v|e] w1]; simpl in *; [by rewrite Hs|].
    destruct (is_Exception e); simpl; rewrite Hs; [by apply prefix_app_r | done].
Qed.

(** ** Programs whose functions raise instances of [Exception] only *)

Lemma off_raises event cb w e : fst (off event cb w) = Raise e → e = ValueError.
Proof.
  destruct (remove cb (registered w event)) as [l'|] eqn:E.
  - by rewrite (off_Some _ _ _ _ E).
  - rewrite (off_None _ _ _ E). by intros [= <-].
Qed.

Lemma exec_raises s w e : fst (exec s w) = Raise e → e = ValueError.
Proof.
  destruct s as [event cb|event cb|event cb]; simpl; [done| |done].
  apply off_raises.
Qed.

Lemma exec_all_raises b w e : fst (exec_all b w) = Raise e → e = ValueError.
Proof.
  revert w. induction b as [|s b IH]; intros w; simpl; [done|].
  unfold bind. pose proof (exec_raises s w) as Hs.
  destruct (exec s w) as [[v|e'] w1]; simpl in *; [apply IH|].
  intros [= <-]. by apply Hs.
Qed.

Lemma run_body_raises fns f args w e :
  fst (run_body fns f args w) = Raise e →
  e = ValueError ∨ fn_result (fns f) args = Raise e.
Proof.
  unfold run_body, bind, modify. simpl.
  pose proof (exec_all_raises (fn_body (fns f) args) (record (Run f args) w)) as Hb.
  destruct (exec_all (fn_body (fns f) args) (record (Run f args) w)) as [[v|e'] w1];
    simpl in *.
  - intros H. by right.
  - intros [= <-]. left. by apply Hb.
Qed.

Lemma call_raises_exception fns cb args w e :
  exception_only fns → fst (call fns cb args w) = Raise e → is_Exception e = true.
Proof.
  intros Hx. revert w. induction cb as [f|k event cb IH]; intros w; simpl.
  - destruct (fn_accepts (fns f) args); [|by intros [= <-]].
    destruct (fn_async (fns f)); [done|].
    intros [->|H]%run_body_raises; [done|]. by apply (Hx f args).
  - unfold bind at 1. pose proof (off_raises event (CallbackOff k event cb) w) as Ho.
    destruct (off event (CallbackOff k event cb) w) as [[v|e'] w1]; simpl in *.
    + unfold bind, modify. simpl. apply IH.
    + intros [= <-]. by rewrite (Ho e').
Qed.

Lemma dispatch_returns fns args cb w :
  exception_only fns → fst (dispatch fns args cb w) = Ret tt.
Proof.
  intros Hx. destruct (fst (dispatch fns args cb w)) as [[]|e] eqn:E; [done|].
  apply dispatch_raises in E as (_ & He & Hi).
  assert (Hc : fst (call fns cb args (record (Invoke cb args) w)) = Raise e).
  { unfold invoke, bind, modify in Hi. simpl in Hi.
    by destruct (call fns cb args (record (Invoke cb args) w)) as [[] ?]; inversion Hi. }
  apply call_raises_exception in Hc; [congruence | done].
Qed.

(** ** The whole pass *)

Lemma for_each_dispatch_cons fns args cb l w :
  fst (dispatch fns args cb w) = Ret tt →
  for_each (cb :: l) (dispatch fns args) w =
    for_each l (dispatch fns args) (snd (dispatch fns args cb w)).
Proof.
  intros H. simpl. unfold bind. by destruct (dispatch fns args cb w) as [[] w1].
Qed.

Lemma for_each_dispatch_cons_raise fns args cb l w e :
  fst (dispatch fns args cb w) = Raise e →
  for_each (cb :: l) (dispatch fns args) w = (Raise e, snd (dispatch fns args cb w)).
Proof.
  intros H. simpl. unfold bind. destruct (dispatch fns args cb w) as [[] w1]; [done|].
  simpl in *. by injection H as ->.
Qed.

Lemma called_cons fns args cb l w :
  fst (dispatch fns args cb w) = Ret tt →
  called fns args (cb :: l) w = S (called fns args l (snd (dispatch fns args cb w))).
Proof. intros H. simpl. by destruct (dispatch fns args cb w) as [[] w1]. Qed.

Lemma called_cons_raise fns args cb l w e :
  fst (dispatch fns args cb w) = Raise e → called fns args (cb :: l) w = 1.
Proof. intros H. simpl. by destruct (dispatch fns args cb w) as [[] w1]. Qed.

Lemma called_le fns args l w : called fns args l w ≤ length l.
Proof.
  revert w. induction l as [|cb l IH]; intros w; simpl; [done|].
  destruct (dispatch fns args cb w) as [[] w1]; [|lia]. specialize (IH w1). lia.
Qed.

Lemma called_pos fns args cb l w : 0 < called fns args (cb :: l) w.
Proof. simpl. destruct (dispatch fns args cb w) as [[] w1]; lia. Qed.

Lemma for_each_dispatch_app fns args l1 l2 w :
  fst (for_each l1 (dispatch fns args) w) = Ret tt →
  for_each (l1 ++ l2) (dispatch fns args) w =
    for_each l2 (dispatch fns args) (snd (for_each l1 (dispatch fns args) w)) ∧
  called fns args (l1 ++ l2) w =
    length l1 + called fns args l2 (snd (for_each l1 (dispatch fns args) w)).
Proof.
  revert w. induction l1 as [|cb l1 IH]; intros w; [done|].
  destruct (fst (dispatch fns args cb w)) as [[]|e] eqn:E.
  - rewrite <- app_comm_cons, !for_each_dispatch_cons, !called_cons by done.
    intros H. destruct (IH _ H) as [-> ->]. done.
  - rewrite (for_each_dispatch_cons_raise _ _ _ _ _ _ E). done.
Qed.

(** The calls of a pass are the first [called] callbacks of the list. *)
Lemma for_each_dispatch_invokes fns args l w :
  invokes (trace (snd (for_each l (dispatch fns args) w))) =
    invokes (trace w) ++ map (λ cb, (cb, args)) (take (called fns args l w) l).
Proof.
  revert w. induction l as [|cb l IH]; intros w.
  - simpl. by rewrite app_nil_r.
  - destruct (fst (dispatch fns args cb w)) as [[]|e] eqn:E.
    + rewrite for_each_dispatch_cons, called_cons, IH, dispatch_invokes by done.
      simpl. by rewrite <- app_assoc.
    + rewrite (for_each_dispatch_cons_raise _ _ _ _ _ _ E),
        (called_cons_raise _ _ _ _ _ _ E).
      simpl. by rewrite dispatch_invokes.
Qed.

Lemma for_each_dispatch_returns fns args l w :
  fst (for_each l (dispatch fns args) w) = Ret tt → called fns args l w = length l.
Proof.
  revert w. induction l as [|cb l IH]; intros w; [done|].
  destruct (fst (dispatch fns args cb w)) as [[]|e] eqn:E.
  - rewrite for_each_dispatch_cons, called_cons by done. intros H. simpl.
    by rewrite IH.
  - by rewrite (for_each_dispatch_cons_raise _ _ _ _ _ _ E).
Qed.


Lemma for_each_dispatch_exception_only fns args l w :
  exception_only fns → fst (for_each l (dispatch fns args) w) = Ret tt.
Proof.
  intros Hx. revert w. induction l as [|cb l IH]; intros w; [done|].
  rewrite for_each_dispatch_cons by (by apply dispatch_returns). apply IH.
Qed.

Lemma for_each_dispatch_stderr fns args l w :
  stderr w `prefix_of` stderr (snd (for_each l (dispatch fns args) w)).
Proof.
  revert w. induction l as [|cb l IH]; intros w; [done|].
  destruct (fst (dispatch fns args cb w)) as [[]|e] eqn:E.
  - rewrite for_each_dispatch_cons by done.
    etrans; [apply dispatch_stderr | apply IH].
  - rewrite (for_each_dispatch_cons_raise _ _ _ _ _ _ E). apply dispatch_stderr.
Qed.

Lemma emit_unfold fns event args w :
  emit fns event args w =
    (match fst (for_each (registered w event) (dispatch fns args) w) with
     | Ret _ => Ret VNone
     | Raise e => Raise e
     end,
     snd (for_each (registered w event) (dispatch fns args) w)).
Proof.
  unfold emit, bind, get, registered. simpl.
  destruct (_events (self w) !! event) as [l|]; simpl; [|done].
  by destruct (for_each l (dispatch fns args) w) as [[] w1].
Qed.

Lemma emit_snd fns event args w :
  snd (emit fns event args w) = snd (for_each (registered w event) (dispatch fns args) w).
Proof. by rewrite emit_unfold. Qed.

Lemma emit_returns fns event args w v :
  fst (emit fns event args w) = Ret v →
  v = VNone ∧ fst (for_each (registered w event) (dispatch fns args) w) = Ret tt.
Proof.
  rewrite emit_unfold. simpl.
  destruct (fst (for_each (registered w event) (dispatch fns args) w)) as [[]|e]; [|done].
  by intros [= <-].
Qed.


Lemma emit_exception_only fns event args w :
  exception_only fns → fst (emit fns event args w) = Ret VNone.
Proof.
  intros Hx. rewrite emit_unfold. simpl.
  by rewrite for_each_dispatch_exception_only.
Qed.

Lemma emit_invokes fns event args w :
  invokes (trace (snd (emit fns event args w))) =
    invokes (trace w) ++
    map (λ cb, (cb, args))
      (take (called fns args (registered w event) w) (registered w event)).
Proof. rewrite emit_snd. apply for_each_dispatch_invokes. Qed.

Lemma emit_invokes_all fns event args w :
  fst (emit fns event args w) = Ret VNone →
  invokes (trace (snd (emit fns event args w))) =
    invokes (trace w) ++ map (λ cb, (cb, args)) (registered w event).
Proof.
  intros [_ H]%emit_returns. rewrite emit_invokes.
  by rewrite (for_each_dispatch_returns _ _ _ _ H), firstn_all.
Qed.




Lemma same_but_bodies_quiet fns g : same_but_bodies fns (quiet fns g).
Proof. intros f. unfold quiet. by case_decide. Qed.

(** C7, as it is stated, fails: the list is [unhook; quit; greet].  When
    [unhook] takes [greet] off, the [off] in [quit] raises [ValueError],
    which [emit] catches, and [greet] is called; when [unhook] leaves the
    registry alone, [quit] gets to raise [SystemExit] and [greet] is not
    called. *)
Lemma mutation_changes_the_pass : ¬ pass_blind_to_mutation.
Proof.
  intros H.
  specialize (H sample (quiet sample 3) "ready" []
                (after sample [DoOn "ready" (Fn 3); DoOn "ready" (Fn 5);
                               DoOn "ready" (Fn 0)])
                (same_but_bodies_quiet sample 3)).
  vm_compute in H. discriminate.
Qed.

(** C7, amended: [emit] walks the list copied when the pass began: the
    callbacks it calls are an initial segment of that list, whatever the
    callbacks do to the registry meanwhile, so one added during the pass is
    not called in it and one taken off is still called when the pass gets to
    it.  Two programs whose passes both return have called the same
    callbacks, the whole list, and so have any two programs that end with
    instances of [Exception] only.  What the callbacks did to the registry
    shows in the next pass, which walks the list as the first pass left it. *)
Theorem emit_pass_walks_snapshot fns fns' event args args' w :
  invokes (trace (snd (emit fns event args w))) =
    invokes (trace w) ++
    map (λ cb, (cb, args))
      (take (called fns args (registered w event) w) (registered w event)) ∧
  (fst (emit fns event args w) = Ret VNone →
   fst (emit fns' event args w) = Ret VNone →
   invokes (trace (snd (emit fns event args w))) =
     invokes (trace w) ++ map (λ cb, (cb, args)) (registered w event) ∧
   invokes (trace (snd (emit fns' event args w))) =
     invokes (trace (snd (emit fns event args w)))) ∧
  (exception_only fns → exception_only fns' →
   invokes (trace (snd (emit fns' event args w))) =
     invokes (trace (snd (emit fns event args w)))) ∧
  invokes (trace (snd (emit fns event args' (snd (emit fns event args w))))) =
    invokes (trace (snd (emit fns event args w))) ++
    map (λ cb, (cb, args'))
      (take (called fns args' (registered (snd (emit fns event args w)) event)
               (snd (emit fns event args w)))
         (registered (snd (emit fns event args w)) event)).
Proof.
  split_and!.
  - apply emit_invokes.
  - intros H H'. by rewrite !emit_invokes_all.
  - intros Hx Hx'.
    by rewrite !emit_invokes_all by (by apply emit_exception_only).
  - apply emit_invokes.
Qed.

Lemma emit_pass_walks_snapshot_witness :
  fst (emit sample "ready" []
         (after sample [DoOn "ready" (Fn 3); DoOn "ready" (Fn 0)])) = Ret VNone ∧
  registered
    (snd (emit sample "ready" []
            (after sample [DoOn "ready" (Fn 3); DoOn "ready" (Fn 0)]))) "ready" = [Fn 3] ∧
  invokes
    (trace (snd (emit sample "ready" []
                   (after sample [DoOn "ready" (Fn 3); DoOn "ready" (Fn 0)])))) =
    [(Fn 3, []); (Fn 0, [])].
Proof.
  split_and!; [reflexivity | reflexivity |].
  pose proof (emit_pass_walks_snapshot sample (quiet sample 3) "ready" [] []
                (after sample [DoOn "ready" (Fn 3); DoOn "ready" (Fn 0)]))
    as (_ & H & _).
  exact (proj1 (H eq_refl eq_refl)).
Defined.

(** A pass during which the list changes: [unhook] runs first and takes
    [greet] off, [greet] is still called in that pass and not in the next. *)
Example unhook_during_pass :
  let w := after sample [DoOn "ready" (Fn 3); DoOn "ready" (Fn 0)] in
  let w1 := snd (emit sample "ready" [] w) in
  let w2 := snd (emit sample "ready" [] w1) in
  registered w "ready" = [Fn 3; Fn 0] ∧
  invokes (trace w1) = [(Fn 3, []); (Fn 0, [])] ∧
  registered w1 "ready" = [Fn 3] ∧
  invokes (trace w2) = [(Fn 3, []); (Fn 0, []); (Fn 3, [])].
Proof. vm_compute. done. Qed.

(** A callback that takes itself off during its own call: the closure of
    [once] is first in the list, [boom] after it is still called in that
    pass, and the next pass calls [boom] alone. *)
Example self_removal_during_pass :
  let w := after sample [DoOnce "ready" (Fn 0); DoOn "ready" (Fn 2)] in
  let w1 := snd (emit sample "ready" [] w) in
  let w2 := snd (emit sample "ready" [] w1) in
  registered w "ready" = [CallbackOff 0 "ready" (Fn 0); Fn 2] ∧
  invokes (trace w1) = [(CallbackOff 0 "ready" (Fn 0), []); (Fn 2, [])] ∧
  registered w1 "ready" = [Fn 2] ∧
  invokes (trace w2) =
    [(CallbackOff 0 "ready" (Fn 0), []); (Fn 2, []); (Fn 2, [])].
Proof. vm_compute. done. Qed.

(** C8, as it is stated, fails: the synchronous callback [stop] raises
    [CancelledError]; [emit] does not return [None], it raises. *)
Lemma cancelled_error_leaves_emit : ¬ sync_failures_caught sample.
Proof.
  intros H.
  destruct (H "ready" [] (after sample [DoOn "ready" (Fn 4); DoOn "ready" (Fn 0)])
              [] (Fn 4) [Fn 0] CancelledError eq_refl eq_refl eq_refl eq_refl) as [H1 _].
  vm_compute in H1. discriminate.
Qed.

(** C8, amended: when the pass gets to a synchronous callback whose call
    raises [e].  If [e] is an instance of [Exception], the handler prints it,
    the turn ends normally and the pass goes on with the callbacks that
    follow in the copied list, the first of which is called; what was printed
    stays.  If [e] is not an instance of [Exception], nothing is printed, [e]
    leaves [emit] and the callbacks that follow are not called. *)
Theorem emit_survives_sync_exception fns event args w l1 cb l2 e :
  _events (self w) !! event = Some (l1 ++ cb :: l2) →
  iscoroutinefunction fns cb = false →
  fst (for_each l1 (dispatch fns args) w) = Ret tt →
  fst (invoke fns cb args (snd (for_each l1 (dispatch fns args) w))) = Raise e →
  (is_Exception e = true →
     fst (dispatch fns args cb (snd (for_each l1 (dispatch fns args) w))) = Ret tt ∧
     stderr (snd (dispatch fns args cb (snd (for_each l1 (dispatch fns args) w)))) =
       stderr (snd (for_each l1 (dispatch fns args) w)) ++ [e] ∧
     snd (emit fns event args w) =
       snd (for_each l2 (dispatch fns args)
              (snd (dispatch fns args cb (snd (for_each l1 (dispatch fns args) w))))) ∧
     stderr (snd (dispatch fns args cb (snd (for_each l1 (dispatch fns args) w))))
       `prefix_of` stderr (snd (emit fns event args w)) ∧
     invokes (trace (snd (emit fns event args w))) =
       invokes (trace w) ++ map (λ c, (c, args)) (l1 ++ [cb]) ++
       map (λ c, (c, args))
         (take (called fns args l2
                  (snd (dispatch fns args cb (snd (for_each l1 (dispatch fns args) w)))))
            l2) ∧
     (l2 ≠ [] →
      0 < called fns args l2
            (snd (dispatch fns args cb (snd (for_each l1 (dispatch fns args) w)))))) ∧
  (is_Exception e = false →
     fst (emit fns event args w) = Raise e ∧
     stderr (snd (emit fns event args w)) =
       stderr (snd (for_each l1 (dispatch fns args) w)) ∧
     invokes (trace (snd (emit fns event args w))) =
       invokes (trace w) ++ map (λ c, (c, args)) (l1 ++ [cb])).
Proof.
  intros Hev Hsync Hl1 Hraise.
  assert (Hreg : registered w event = l1 ++ cb :: l2) by (unfold registered; by rewrite Hev).
  set (wk := snd (for_each l1 (dispatch fns args) w)) in *.
  assert (Hs : stable stderr (invoke fns cb args))
    by (by apply invoke_stable; auto with stable).
  specialize (Hs wk).
  assert (Hwk : invokes (trace wk) = invokes (trace w) ++ map (λ c, (c, args)) l1).
  { unfold wk. rewrite for_each_dispatch_invokes.
    by rewrite (for_each_dispatch_returns _ _ _ _ Hl1), firstn_all. }
  destruct (for_each_dispatch_app fns args l1 (cb :: l2) w Hl1) as [Happ _].
  fold wk in Happ.
  split.
  - intros He.
    assert (Hd : dispatch fns args cb wk =
                 (Ret tt, print_exc e (snd (invoke fns cb args wk)))).
    { rewrite dispatch_sync by done.
      destruct (invoke fns cb args wk) as [[v|e'] w']; simpl in *; [done|].
      injection Hraise as ->. by rewrite He. }
    assert (Hemit : snd (emit fns event args w) =
                    snd (for_each l2 (dispatch fns args) (snd (dispatch fns args cb wk)))).
    { rewrite emit_snd, Hreg, Happ, for_each_dispatch_cons; [done|by rewrite Hd]. }
    split_and!.
    + by rewrite Hd.
    + rewrite Hd. simpl. by rewrite Hs.
    + done.
    + rewrite Hemit. apply for_each_dispatch_stderr.
    + rewrite Hemit, for_each_dispatch_invokes, dispatch_invokes, Hwk, map_app.
      simpl. by rewrite <- !app_assoc.
    + intros Hne. destruct l2 as [|c l2]; [done|]. apply called_pos.
  - intros He.
    assert (Hd : dispatch fns args cb wk = (Raise e, snd (invoke fns cb args wk))).
    { rewrite dispatch_sync by done.
      destruct (invoke fns cb args wk) as [[v|e'] w']; simpl in *; [done|].
      injection Hraise as ->. by rewrite He. }
    assert (Hfe : for_each (registered w event) (dispatch fns args) w =
                  (Raise e, snd (invoke fns cb args wk))).
    { rewrite Hreg, Happ.
      rewrite (for_each_dispatch_cons_raise _ _ _ _ _ e) by (by rewrite Hd).
      by rewrite Hd. }
    rewrite emit_unfold, Hfe. simpl. split_and!; [done|done|].
    rewrite invoke_invokes, Hwk, map_app. simpl. by rewrite <- app_assoc.
Qed.

Lemma emit_survives_sync_exception_witness :
  _events (self (after sample [DoOn "ready" (Fn 2); DoOn "ready" (Fn 0)])) !! "ready" =
    Some ([] ++ Fn 2 :: [Fn 0]) ∧
  stderr (snd (dispatch sample [] (Fn 2)
                 (after sample [DoOn "ready" (Fn 2); DoOn "ready" (Fn 0)]))) =
    [UserError 3] ∧
  invokes (trace (snd (emit sample "ready" []
                         (after sample [DoOn "ready" (Fn 2); DoOn "ready" (Fn 0)])))) =
    [(Fn 2, []); (Fn 0, [])].
Proof.
  pose proof (emit_survives_sync_exception sample "ready" []
                (after sample [DoOn "ready" (Fn 2); DoOn "ready" (Fn 0)])
                [] (Fn 2) [Fn 0] (UserError 3) eq_refl eq_refl eq_refl eq_refl) as [H _].
  destruct (H eq_refl) as (_ & Hs & _ & _ & Hi & _).
  split_and!; [reflexivity | exact Hs | exact Hi].
Defined.



(** X7: the closure of [once] calls [cb] only after its own [off]
    returned: called while it is not in [E]'s list, it raises the error of
    [off]; [emit] prints that error and [cb] is not called. *)
Theorem closure_off_the_list_skips_callback fns k event cb args w :
  CallbackOff k event cb ∉ registered w event →
  fst (invoke fns (CallbackOff k event cb) args w) = Raise ValueError ∧
  stderr (snd (dispatch fns args (CallbackOff k event cb) w)) = stderr w ++ [ValueError] ∧
  trace (snd (dispatch fns args (CallbackOff k event cb) w)) =
    trace w ++ [Invoke (CallbackOff k event cb) args].
Proof.
  intros Hn. set (wr := CallbackOff k event cb) in *.
  assert (E : remove wr (registered (record (Invoke wr args) w) event) = None)
    by (by apply remove_None).
  assert (Hi : invoke fns wr args w =
               (Raise ValueError,
                set_events <[event := registered w event]> (record (Invoke wr args) w))).
  { unfold invoke, bind at 1, modify. simpl call. fold wr. unfold bind at 1.
    by rewrite (off_None _ _ _ E). }
  rewrite dispatch_sync by done. rewrite Hi. done.
Qed.

Lemma closure_off_the_list_skips_callback_witness :
  (CallbackOff 5 "ready" (Fn 0) ∉ registered (new "EventEmitter") "ready") ∧
  trace (snd (dispatch sample [] (CallbackOff 5 "ready" (Fn 0)) (new "EventEmitter"))) =
    [Invoke (CallbackOff 5 "ready" (Fn 0)) []].
Proof.
  split; [apply not_elem_of_nil|].
  pose proof (closure_off_the_list_skips_callback sample 5 "ready" (Fn 0) []
                (new "EventEmitter") (not_elem_of_nil _)) as (_ & _ & H).
  exact H.
Defined.

(** ** The closure of [once] *)

(** The closure of [once], called while it is registered. *)
Lemma call_callback_off fns k event cb args w :
  CallbackOff k event cb ∈ registered w event →
  fst (off event (CallbackOff k event cb) w) = Ret VSelf ∧
  call fns (CallbackOff k event cb) args w =
    call fns cb args
      (record (Delegate (CallbackOff k event cb) cb args)
         (snd (off event (CallbackOff k event cb) w))).
Proof.
  intros Hin. destruct (remove_is_Some _ _ Hin) as [l' E].
  simpl. unfold bind at 1. rewrite (off_Some _ _ _ _ E). done.
Qed.

Lemma call_fn_without_calls fns f args w :
  fn_body (fns f) args = [] →
  call fns (Fn f) args w =
    if fn_accepts (fns f) args then
      if fn_async (fns f) then (Ret (VCoro f args), w)
      else (fn_result (fns f) args, record (Run f args) w)
    else (Raise TypeError, w).
Proof.
  intros H. simpl. destruct (fn_accepts (fns f) args); [|done].
  destruct (fn_async (fns f)); [done|].
  unfold run_body, bind, modify. simpl. by rewrite H.
Qed.

Lemma delegations_app x tr tr' :
  delegations x (tr ++ tr') = delegations x tr + delegations x tr'.
Proof.
  induction tr as [|[] tr IH]; simpl; [done|done| |done]. rewrite IH. lia.
Qed.

Lemma occurrences_app x l l' :
  occurrences x (l ++ l') = occurrences x l + occurrences x l'.
Proof. induction l as [|c l IH]; simpl; [done|]. rewrite IH. lia. Qed.

Lemma occurrences_0 x l : occurrences x l = 0 ↔ x ∉ l.
Proof.
  induction l as [|c l IH]; simpl.
  - split; [intros _; apply not_elem_of_nil | done].
  - rewrite not_elem_of_cons, <- IH. case_decide; subst; [|naive_solver lia].
    split; [lia | naive_solver].
Qed.

Lemma occurrences_remove x c l l' :
  remove c l = Some l' →
  occurrences x l = (if decide (c = x) then 1 else 0) + occurrences x l'.
Proof.
  revert l'. induction l as [|d l IH]; simpl; intros l' H; [done|].
  destruct (decide (d = c)) as [->|Hne].
  - injection H as <-. done.
  - destruct (remove c l) as [l0|]; [|done]. injection H as <-. simpl.
    rewrite (IH l0) by done. repeat case_decide; try congruence; lia.
Qed.

Lemma remove_subseteq c l l' d : remove c l = Some l' → d ∈ l' → d ∈ l.
Proof.
  intros (l1 & l2 & -> & _ & ->)%remove_Some.
  rewrite !elem_of_app, elem_of_cons. naive_solver.
Qed.

Lemma occurs_refl x : occurs x x = true.
Proof. destruct x; simpl; by rewrite decide_True. Qed.

Lemma occurs_depth x c : occurs x c = true → depth x ≤ depth c.
Proof.
  induction c as [f|k event c IH]; simpl; case_decide; subst; try done.
  intros Ho. specialize (IH Ho). lia.
Qed.

Lemma occurs_wrapped k event cb : occurs (CallbackOff k event cb) cb = false.
Proof.
  destruct (occurs (CallbackOff k event cb) cb) eqn:E; [|done].
  apply occurs_depth in E. simpl in E. lia.
Qed.

Lemma occurs_inside x k event c :
  occurs x (CallbackOff k event c) = false → occurs x c = false.
Proof. simpl. by case_decide. Qed.

Lemma foreign_neq x c : occurs x c = false → c ≠ x.
Proof. intros H ->. by rewrite occurs_refl in H. Qed.

Lemma absent_registered x w event c :
  absent x w → c ∈ registered w event → occurs x c = false.
Proof.
  intros Ha. unfold registered.
  destruct (_events (self w) !! event) as [l|] eqn:E; simpl.
  - by apply (Ha event).
  - by intros ?%elem_of_nil.
Qed.

Lemma registered_off event cb w e' :
  registered (snd (off event cb w)) e' =
    if decide (event = e') then default (registered w event) (remove cb (registered w event))
    else registered w e'.
Proof.
  destruct (remove cb (registered w event)) as [l'|] eqn:E.
  - rewrite (off_Some _ _ _ _ E). simpl. rewrite registered_set_events.
    case_decide as Hd; [subst e'|]; case_bool_decide as Hb.
    + by rewrite lookup_delete_eq, Hb.
    + by rewrite lookup_insert_eq.
    + by rewrite lookup_delete_ne.
    + by rewrite lookup_insert_ne.
  - rewrite (off_None _ _ _ E). simpl. rewrite registered_set_events.
    case_decide as Hd; [subst e'|].
    + by rewrite lookup_insert_eq.
    + by rewrite lookup_insert_ne.
Qed.

Lemma off_frame event cb w :
  closures (snd (off event cb w)) = closures w ∧ trace (snd (off event cb w)) = trace w.
Proof.
  destruct (remove cb (registered w event)) as [l'|] eqn:E.
  - by rewrite (off_Some _ _ _ _ E).
  - by rewrite (off_None _ _ _ E).
Qed.

(** *** Calls that do not involve a given closure *)
Section Harmless.
Variables (fns : nat → fn) (k : nat) (E : string) (cb0 : callback).
#[local] Abbreviation x := (CallbackOff k E cb0).

Lemma keeps_refl w : keeps x w w.
Proof. by split. Qed.

Lemma keeps_trans w1 w2 w3 : keeps x w1 w2 → keeps x w2 w3 → keeps x w1 w3.
Proof.
  intros [H1 H2] [H3 H4]. split; [|congruence]. intros e. by rewrite H3.
Qed.

(** Worlds with the same registry, the same closure count and as many calls
    by [x]. *)
Lemma harmless_same w w' :
  _events (self w') = _events (self w) → closures w' = closures w →
  delegations x (trace w') = delegations x (trace w) →
  guarded x k w → guarded x k w' ∧ keeps x w w'.
Proof.
  intros He Hc Hd [Hk Hg]. unfold guarded, keeps, registered in *.
  rewrite He, Hc. done.
Qed.

Lemma harmless_ret {X} (v : X) : harmless x k (ret v).
Proof. intros w Hw. split; [done | apply keeps_refl]. Qed.

Lemma harmless_raise {X} e : harmless x k (@raise X e).
Proof. intros w Hw. split; [done | apply keeps_refl]. Qed.

Lemma harmless_modify g :
  (∀ w, _events (self (g w)) = _events (self w) ∧ closures (g w) = closures w ∧
        delegations x (trace (g w)) = delegations x (trace w)) →
  harmless x k (modify g).
Proof. intros H w Hw. destruct (H w) as (? & ? & ?). by apply harmless_same. Qed.

Lemma harmless_bind {X Y} (m : M X) (f : X → M Y) :
  harmless x k m → (∀ v, harmless x k (f v)) → harmless x k (bind m f).
Proof.
  intros Hm Hf w Hw. unfold bind. specialize (Hm w Hw).
  destruct (m w) as [[v|e] w1]; simpl in *; [|done].
  destruct Hm as [Hg Hk]. destruct (Hf v w1 Hg) as [Hg' Hk'].
  split; [done | by eapply keeps_trans].
Qed.

Lemma harmless_for_each {X} (l : list X) (body : X → M unit) :
  (∀ c, c ∈ l → harmless x k (body c)) → harmless x k (for_each l body).
Proof.
  induction l as [|c l IH]; intros H; simpl; [apply harmless_ret|].
  apply harmless_bind; [apply H; left | intros _; apply IH].
  intros c' Hc'. apply H. by right.
Qed.

Lemma harmless_on event c : occurs x c = false → harmless x k (on event c).
Proof.
  intros Hc w [Hk Hg]. split; [split|split].
  - done.
  - intros e d. rewrite registered_on. case_decide; [|apply Hg].
    rewrite elem_of_app, list_elem_of_singleton. intros [Hd| ->]; [by apply (Hg event)|].
    by right.
  - intros e. rewrite registered_on. case_decide; [subst e|done].
    rewrite occurrences_app. simpl. rewrite decide_False by (by apply foreign_neq). lia.
  - done.
Qed.

Lemma harmless_off event c : occurs x c = false → harmless x k (off event c).
Proof.
  intros Hc w [Hk Hg]. destruct (off_frame event c w) as [Hcl Htr].
  split; [split|split].
  - by rewrite Hcl.
  - intros e d. rewrite registered_off. case_decide; [subst e|apply Hg].
    destruct (remove c (registered w event)) as [l'|] eqn:Er; simpl; [|apply Hg].
    intros Hd. apply (Hg event). by eapply remove_subseteq.
  - intros e. rewrite registered_off. case_decide; [subst e|done].
    destruct (remove c (registered w event)) as [l'|] eqn:Er; simpl; [|done].
    rewrite (occurrences_remove x _ _ _ Er).
    by rewrite decide_False by (by apply foreign_neq).
  - by rewrite Htr.
Qed.

Lemma harmless_once event c : occurs x c = false → harmless x k (once event c).
Proof.
  intros Hc w [Hk Hg]. rewrite once_unfold. simpl.
  assert (Hnew : occurs x (CallbackOff (closures w) event c) = false).
  { simpl. rewrite decide_False; [done|]. intros [= ? _ _]. lia. }
  split; [split|split].
  - simpl. lia.
  - intros e d. rewrite registered_set_events. simpl.
    destruct (decide (event = e)) as [<-|Hne].
    + rewrite lookup_insert_eq. simpl.
      rewrite elem_of_app, list_elem_of_singleton.
      intros [Hd| ->]; [by apply (Hg event) | by right].
    + rewrite lookup_insert_ne by done. apply Hg.
  - intros e. rewrite registered_set_events. simpl.
    destruct (decide (event = e)) as [<-|Hne].
    + rewrite lookup_insert_eq. simpl. rewrite occurrences_app. simpl.
      rewrite decide_False by (by apply foreign_neq). unfold registered. lia.
    + by rewrite lookup_insert_ne.
  - done.
Qed.

Hypothesis Hunknown : unknown_to fns x.

Lemma harmless_exec_all b :
  (∀ s, s ∈ b → occurs x (stmt_callback s) = false) → harmless x k (exec_all b).
Proof.
  induction b as [|s b IH]; intros H; simpl; [apply harmless_ret|].
  apply harmless_bind.
  - assert (Hs : occurs x (stmt_callback s) = false) by (apply H; left).
    destruct s; simpl in *;
      [by apply harmless_on | by apply harmless_off | by apply harmless_once].
  - intros _. apply IH. intros s' Hs'. apply H. by right.
Qed.

Lemma harmless_run_body f args : harmless x k (run_body fns f args).
Proof.
  unfold run_body. apply harmless_bind.
  - apply harmless_modify. intros w. simpl. rewrite delegations_app. simpl.
    split_and!; [done|done|lia].
  - intros _. apply harmless_bind; [apply harmless_exec_all, Hunknown|].
    intros _ w Hw. split; [done | apply keeps_refl].
Qed.

Lemma harmless_call c args : occurs x c = false → harmless x k (call fns c args).
Proof.
  induction c as [f|k' event c IH]; intros Hc; simpl.
  - destruct (fn_accepts (fns f) args); [|apply harmless_raise].
    destruct (fn_async (fns f)); [apply harmless_ret | apply harmless_run_body].
  - apply harmless_bind; [by apply harmless_off|intros _].
    apply harmless_bind; [|intros _; eapply IH, occurs_inside, Hc].
    apply harmless_modify. intros w. simpl. rewrite delegations_app. simpl.
    rewrite decide_False by (by apply foreign_neq). split_and!; [done|done|lia].
Qed.

Lemma harmless_invoke c args : occurs x c = false → harmless x k (invoke fns c args).
Proof.
  intros Hc. unfold invoke. apply harmless_bind; [|intros _; by apply harmless_call].
  apply harmless_modify. intros w. simpl. rewrite delegations_app. simpl.
  split_and!; [done|done|lia].
Qed.

(** After the call, in either branch, the registry and the calls of [x] are
    not touched any more. *)
Lemma dispatch_after_invoke args c w :
  _events (self (snd (dispatch fns args c w))) =
    _events (self (snd (invoke fns c args w))) ∧
  closures (snd (dispatch fns args c w)) = closures (snd (invoke fns c args w)) ∧
  trace (snd (dispatch fns args c w)) = trace (snd (invoke fns c args w)).
Proof.
  destruct (iscoroutinefunction fns c) eqn:Hco.
  - apply iscoroutinefunction_Fn in Hco as (f & -> & Ha).
    rewrite dispatch_async by done. unfold invoke, bind, modify. simpl. rewrite Ha.
    destruct (fn_accepts (fns f) args); [|done].
    destruct (fn_name (fns f)); [|done]. by destruct (closed (loop (self w))).
  - rewrite dispatch_sync by done.
    destruct (invoke fns c args w) as [[v|e] w1]; [done|]. by destruct (is_Exception e).
Qed.

Lemma harmless_dispatch args c : occurs x c = false → harmless x k (dispatch fns args c).
Proof.
  intros Hc w Hw. destruct (harmless_invoke c args Hc w Hw) as [Hg Hk].
  destruct (dispatch_after_invoke args c w) as (He & Hcl & Htr).
  destruct (harmless_same (snd (invoke fns c args w)) (snd (dispatch fns args c w)))
    as [Hg' Hk']; [done|done|by rewrite Htr|done|].
  split; [done | by eapply keeps_trans].
Qed.

Lemma harmless_pass args l :
  (∀ c, c ∈ l → occurs x c = false) → harmless x k (for_each l (dispatch fns args)).
Proof.
  intros H. apply harmless_for_each. intros c Hc. by apply harmless_dispatch, H.
Qed.

(** The turn of [x] itself, registered once: it leaves the registry and
    calls [cb0] once. *)
Lemma dispatch_closure args w :
  guarded x k w → occurrences x (registered w E) = 1 →
  (∀ e, e ≠ E → occurrences x (registered w e) = 0) →
  guarded x k (snd (dispatch fns args x w)) ∧
  (∀ e, occurrences x (registered (snd (dispatch fns args x w)) e) = 0) ∧
  delegations x (trace (snd (dispatch fns args x w))) = delegations x (trace w) + 1.
Proof.
  intros Hw H1 H0.
  destruct (dispatch_after_invoke args x w) as (He & Hcl & Htr).
  set (w0 := record (Invoke x args) w).
  assert (Hin : x ∈ registered w0 E).
  { change (registered w0 E) with (registered w E).
    destruct (decide (x ∈ registered w E)) as [|Hn]; [done|].
    apply occurrences_0 in Hn. lia. }
  destruct (call_callback_off fns k E cb0 args w0 Hin) as [_ Hcall].
  set (w1 := snd (off E x w0)) in *.
  assert (Hw1 : guarded x k w1 ∧ (∀ e, occurrences x (registered w1 e) = 0) ∧
                trace w1 = trace w ++ [Invoke x args]).
  { destruct (off_frame E x w0) as [Hc1 Ht1]. fold w1 in Hc1, Ht1.
    destruct Hw as [Hk Hg]. destruct (remove_is_Some _ _ Hin) as [l' Er].
    split_and!.
    - split; [by rewrite Hc1|]. intros e d. unfold w1. rewrite registered_off.
      case_decide; [subst e|apply Hg]. rewrite Er. simpl.
      intros Hd. apply (Hg E). eapply remove_subseteq; [exact Er|done].
    - intros e. unfold w1. rewrite registered_off.
      case_decide; [subst e|by apply H0]. rewrite Er. simpl.
      pose proof (occurrences_remove x _ _ _ Er) as Ho.
      rewrite decide_True in Ho by done.
      change (registered w0 E) with (registered w E) in Ho. lia.
    - by rewrite Ht1. }
  destruct Hw1 as (Hg1 & Ho1 & Ht1).
  set (w2 := record (Delegate x cb0 args) w1) in *.
  assert (Hg2 : guarded x k w2) by done.
  destruct (harmless_call cb0 args (occurs_wrapped k E cb0) w2 Hg2) as [Hg3 [Ho3 Hd3]].
  assert (Hinv : snd (invoke fns x args w) = snd (call fns cb0 args w2)).
  { unfold invoke, bind at 1, modify. cbv beta iota. fold w0. by rewrite Hcall. }
  unfold guarded, registered in *. rewrite He, Hcl, Htr, Hinv.
  split_and!; [apply Hg3 | apply Hg3 | |].
  - intros e. rewrite Ho3. apply Ho1.
  - rewrite Hd3. unfold w2. simpl. rewrite delegations_app, Ht1, delegations_app. simpl.
    rewrite decide_True by done. lia.
Qed.
End Harmless.

Lemma for_each_singleton {X} (c : X) (body : X → M unit) w :
  snd (for_each [c] body w) = snd (body c w).
Proof. simpl. unfold bind. by destruct (body c w) as [[] ?]. Qed.

Lemma absent_on x event c w :
  absent x w → occurs x c = false → absent x (snd (on event c w)).
Proof.
  intros Ha Hc e l d. rewrite on_unfold. simpl.
  destruct (decide (event = e)) as [<-|Hne].
  - rewrite lookup_insert_eq. intros [= <-].
    rewrite elem_of_app, list_elem_of_singleton. intros [Hd| ->]; [|done].
    by apply (absent_registered x w event).
  - rewrite lookup_insert_ne by done. apply Ha.
Qed.

Lemma absent_on_each x event cbs w :
  absent x w → Forall (λ c, occurs x c = false) cbs → absent x (on_each event cbs w).
Proof.
  unfold on_each. intros Ha Hf. revert w Ha.
  induction Hf as [|c cbs Hc Hf IH]; intros w Ha; [done|].
  cbn [foldl]. apply IH. by apply absent_on.
Qed.

Lemma absent_new x cls : absent x (new cls).
Proof. intros e l c. done. Qed.

(** C3, as it is stated, fails: [greet] is also registered with [on]; after
    [once] the two passes call it three times, twice from the list and once
    from the closure. *)
Lemma once_callback_also_registered : ¬ once_then_two_emits_call_once sample.
Proof.
  intros H.
  specialize (H "ready" (Fn 0) [] [] (after sample [DoOn "ready" (Fn 0)])).
  vm_compute in H. discriminate.
Qed.

(** C3, amended: [once(E, cb)] never fails: it returns the emitter and
    appends to [E]'s list a new closure; called while it is registered, the
    closure first takes itself off [E], then calls [cb] with the arguments it
    got and ends as [cb] ends.  Of two [emit(E)] after [once(E, cb)], whatever
    else is registered, the closure calls [cb] exactly once and is then in no
    list any more, provided the first pass gets to the closure (no callback
    before it raises outside [Exception]) and no callback refers to the
    closure, which is a new object that [once] does not hand out.  Other
    registrations of [cb] call it on their own. *)
Theorem once_wrapper_fires_once fns event cb a1 a2 w :
  fst (once event cb w) = Ret VSelf ∧
  registered (snd (once event cb w)) event =
    registered w event ++ [CallbackOff (closures w) event cb] ∧
  (∀ args w0,
     CallbackOff (closures w) event cb ∈ registered w0 event →
     fst (off event (CallbackOff (closures w) event cb) w0) = Ret VSelf ∧
     call fns (CallbackOff (closures w) event cb) args w0 =
       call fns cb args
         (record (Delegate (CallbackOff (closures w) event cb) cb args)
            (snd (off event (CallbackOff (closures w) event cb) w0)))) ∧
  (absent (CallbackOff (closures w) event cb) w →
   unknown_to fns (CallbackOff (closures w) event cb) →
   fst (for_each (registered w event) (dispatch fns a1) (snd (once event cb w))) = Ret tt →
   delegations (CallbackOff (closures w) event cb)
     (trace (snd (emit fns event a2 (snd (emit fns event a1 (snd (once event cb w))))))) =
     delegations (CallbackOff (closures w) event cb) (trace w) + 1 ∧
   ∀ e, CallbackOff (closures w) event cb ∉
          registered (snd (emit fns event a2 (snd (emit fns event a1 (snd (once event cb w))))))
            e).
Proof.
  assert (Hreg1 : registered (snd (once event cb w)) event =
                  registered w event ++ [CallbackOff (closures w) event cb]).
  { rewrite once_unfold. simpl. rewrite registered_set_events.
    by rewrite lookup_insert_eq. }
  split_and!; [done | done | intros args w0; apply call_callback_off |].
  intros Habs Hunk Hreach.
  set (k := closures w) in *. set (x := CallbackOff k event cb) in *.
  set (w1 := snd (once event cb w)) in *.
  assert (Hold : ∀ e c, c ∈ registered w e → occurs x c = false)
    by (intros e c; by apply absent_registered).
  assert (Hold0 : ∀ e, occurrences x (registered w e) = 0).
  { intros e. apply occurrences_0. intros Hin. apply Hold in Hin.
    by rewrite occurs_refl in Hin. }
  assert (Hother : ∀ e, e ≠ event → registered w1 e = registered w e).
  { intros e Hne. unfold w1. rewrite once_unfold. simpl.
    rewrite registered_set_events. by rewrite lookup_insert_ne. }
  assert (Hg1 : guarded x k w1).
  { split; [unfold w1; rewrite once_unfold; simpl; lia|].
    intros e c. destruct (decide (e = event)) as [->|Hne].
    - rewrite Hreg1, elem_of_app, list_elem_of_singleton.
      intros [Hc| ->]; [right; by apply (Hold event) | by left].
    - rewrite Hother by done. intros Hc. right. by apply (Hold e). }
  assert (Ho1 : occurrences x (registered w1 event) = 1).
  { rewrite Hreg1, occurrences_app, Hold0. simpl. by rewrite decide_True. }
  assert (Ho1' : ∀ e, e ≠ event → occurrences x (registered w1 e) = 0).
  { intros e Hne. by rewrite Hother. }
  (* the callbacks registered before the closure *)
  set (w1' := snd (for_each (registered w event) (dispatch fns a1) w1)) in *.
  destruct (harmless_pass fns k event cb Hunk a1 (registered w event) (Hold event) w1 Hg1)
    as [Hg1' [Hk1 Hd1]].
  fold w1' in Hg1', Hk1, Hd1.
  (* the closure's turn *)
  destruct (dispatch_closure fns k event cb Hunk a1 w1' Hg1') as (Hg2 & Ho2 & Hd2).
  { by rewrite Hk1. }
  { intros e Hne. rewrite Hk1. by apply Ho1'. }
  set (w2 := snd (dispatch fns a1 x w1')) in *.
  assert (He1 : snd (emit fns event a1 w1) = w2).
  { rewrite emit_snd, Hreg1.
    destruct (for_each_dispatch_app fns a1 (registered w event) [x] w1 Hreach) as [-> _].
    apply for_each_singleton. }
  rewrite He1.
  (* the second pass *)
  assert (Hl2 : ∀ c, c ∈ registered w2 event → occurs x c = false).
  { intros c Hc. destruct Hg2 as [_ Hg2]. destruct (Hg2 event c Hc) as [->|]; [|done].
    specialize (Ho2 event). apply occurrences_0 in Ho2. done. }
  destruct (harmless_pass fns k event cb Hunk a2 (registered w2 event) Hl2 w2 Hg2)
    as [_ [Hk3 Hd3]].
  rewrite emit_snd. subst w2 w1' w1 x k. split.
  - rewrite Hd3, Hd2, Hd1. done.
  - intros e. apply occurrences_0. by rewrite Hk3.
Qed.

Lemma sample_does_not_know k event cb : unknown_to sample (CallbackOff k event cb).
Proof.
  intros f args s Hs.
  assert (H : fn_body (sample f) args = [] ∨
              fn_body (sample f) args = [CallOff "ready" (Fn 0)]).
  { do 8 (destruct f as [|f]; [by auto|]). by left. }
  destruct H as [H|H]; rewrite H in Hs.
  - by apply elem_of_nil in Hs.
  - apply list_elem_of_singleton in Hs as ->. done.
Qed.

Lemma once_wrapper_fires_once_witness :
  fst (for_each (registered (on_each "ready" [Fn 2; Fn 3] (new "EventEmitter")) "ready")
         (dispatch sample [VInt 42])
         (snd (once "ready" (Fn 0) (on_each "ready" [Fn 2; Fn 3] (new "EventEmitter")))))
    = Ret tt ∧
  delegations (CallbackOff 0 "ready" (Fn 0))
    (trace (snd (emit sample "ready" []
                   (snd (emit sample "ready" [VInt 42]
                           (snd (once "ready" (Fn 0)
                                   (on_each "ready" [Fn 2; Fn 3]
                                      (new "EventEmitter"))))))))) = 1.
Proof.
  split; [reflexivity|].
  pose proof (once_wrapper_fires_once sample "ready" (Fn 0) [VInt 42] []
                (on_each "ready" [Fn 2; Fn 3] (new "EventEmitter"))) as (_ & _ & _ & H).
  refine (proj1 (H _ _ eq_refl)).
  - apply absent_on_each; [apply absent_new|]. by repeat constructor.
  - apply sample_does_not_know.
Defined.

(** C10: the closure that [once] registers for a coroutine function is not
    itself a coroutine function, so [emit] takes its synchronous branch for
    it: no task is created and the task pool does not change, the call of
    the closure returns the coroutine object that calling [cb] built (and
    [emit] drops it), or raises the [TypeError] of that call when [cb] does
    not take the arguments, and the body of [cb] does not start. *)
Theorem once_of_coroutine_function_never_runs fns k event f args w :
  fn_async (fns f) = true →
  iscoroutinefunction fns (CallbackOff k event (Fn f)) = false ∧
  registered (snd (once event (Fn f) w)) event =
    registered w event ++ [CallbackOff (closures w) event (Fn f)] ∧
  loop (self (snd (dispatch fns args (CallbackOff k event (Fn f)) w))) = loop (self w) ∧
  _task_pool (self (snd (dispatch fns args (CallbackOff k event (Fn f)) w))) =
    _task_pool (self w) ∧
  runs_of f (trace (snd (dispatch fns args (CallbackOff k event (Fn f)) w))) =
    runs_of f (trace w) ∧
  (CallbackOff k event (Fn f) ∈ registered w event →
   fst (invoke fns (CallbackOff k event (Fn f)) args w) =
     if fn_accepts (fns f) args then Ret (VCoro f args) else Raise TypeError).
Proof.
  intros Ha. set (wr := CallbackOff k event (Fn f)).
  assert (Hl : stable (λ w, loop (self w)) (invoke fns wr args))
    by (by apply invoke_stable; auto with stable).
  assert (Hp : stable (λ w, _task_pool (self w)) (invoke fns wr args))
    by (by apply invoke_stable; auto with stable).
  specialize (Hl w). specialize (Hp w).
  assert (Hr : runs_of f (trace (snd (invoke fns wr args w))) = runs_of f (trace w)).
  { unfold invoke, bind at 1, modify. simpl call. unfold bind at 1. fold wr.
    destruct (remove wr (registered (record (Invoke wr args) w) event)) as [l'|] eqn:E.
    - rewrite (off_Some _ _ _ _ E). unfold bind, modify. rewrite Ha.
      destruct (fn_accepts (fns f) args); simpl; rewrite !runs_of_app; simpl; lia.
    - rewrite (off_None _ _ _ E). simpl. rewrite !runs_of_app. simpl. lia. }
  split_and!.
  - done.
  - rewrite once_unfold. simpl. rewrite registered_set_events.
    by rewrite lookup_insert_eq.
  - rewrite dispatch_sync by done.
    destruct (invoke fns wr args w) as [[|e] ?]; [done|]. by destruct (is_Exception e).
  - rewrite dispatch_sync by done.
    destruct (invoke fns wr args w) as [[|e] ?]; [done|]. by destruct (is_Exception e).
  - rewrite dispatch_sync by done.
    destruct (invoke fns wr args w) as [[|e] ?]; [done|]. by destruct (is_Exception e).
  - intros Hin. unfold invoke, bind at 1, modify.
    destruct (call_callback_off fns k event (Fn f) args (record (Invoke wr args) w) Hin)
      as [_ Hc].
    fold wr in Hc. rewrite Hc. simpl. rewrite Ha.
    by destruct (fn_accepts (fns f) args).
Qed.

Lemma once_of_coroutine_function_never_runs_witness :
  fn_async (sample 1) = true ∧
  loop (self (after sample [DoOnce "ready" (Fn 1); DoEmit "ready" [VInt 42]])) =
    loop (self (new "EventEmitter")) ∧
  runs_of 1 (trace (snd (dispatch sample [VInt 42] (CallbackOff 0 "ready" (Fn 1))
                           (after sample [DoOnce "ready" (Fn 1)])))) = 0.
Proof.
  split_and!; [reflexivity | reflexivity |].
  pose proof (once_of_coroutine_function_never_runs sample 0 "ready" 1 [VInt 42]
                (after sample [DoOnce "ready" (Fn 1)]) eq_refl) as (_ & _ & _ & _ & H & _).
  exact H.
Defined.

Lemma dispatch_registered_closure fns k event f args w l' :
  remove (CallbackOff k event (Fn f)) (registered w event) = Some l' →
  fn_body (fns f) args = [] →
  (∀ e, fn_result (fns f) args = Raise e → is_Exception e = true) →
  fst (dispatch fns args (CallbackOff k event (Fn f)) w) = Ret tt ∧
  registered (snd (dispatch fns args (CallbackOff k event (Fn f)) w)) event = l' ∧
  calls_of (Fn f) (trace (snd (dispatch fns args (CallbackOff k event (Fn f)) w))) =
    calls_of (Fn f) (trace w) + 1.
Proof.
  intros E Hbody Hres. set (wr := CallbackOff k event (Fn f)) in *.
  assert (Hin : wr ∈ registered (record (Invoke wr args) w) event).
  { apply remove_Some in E as (l1 & l2 & Hl & _).
    change (registered (record (Invoke wr args) w) event) with (registered w event).
    rewrite Hl. apply elem_of_app. right. left. }
  assert (E' : remove wr (registered (record (Invoke wr args) w) event) = Some l') by done.
  assert (Hreg : ∀ m : gmap string (list callback),
            default [] ((if bool_decide (l' = []) then delete event else <[event:=l']>) m
                          !! event) = l').
  { intros m. case_bool_decide as Hb.
    - by rewrite lookup_delete_eq.
    - by rewrite lookup_insert_eq. }
  assert (Hd : ∃ r w', dispatch fns args wr w = (r, w') ∧ r = Ret tt ∧
            registered w' event = l' ∧
            calls_of (Fn f) (trace w') = calls_of (Fn f) (trace w) + 1).
  { rewrite dispatch_sync by done.
    unfold invoke, bind at 1, modify.
    destruct (call_callback_off fns k event (Fn f) args _ Hin) as [_ Hc].
    fold wr in Hc. rewrite Hc.
    rewrite (off_Some _ _ _ _ E'), call_fn_without_calls by done.
    destruct (fn_accepts (fns f) args); [|simpl];
      [destruct (fn_async (fns f));
         [|destruct (fn_result (fns f) args) as [v|e] eqn:Er;
             [|rewrite (Hres e eq_refl)]]|];
      (do 2 eexists; split; [reflexivity|]); simpl;
      (split; [done|]);
      (split; [unfold registered; simpl; by apply Hreg|]);
      rewrite !calls_of_app; simpl; subst wr; repeat case_decide; try done; lia. }
  destruct Hd as (r & w' & -> & -> & ? & ?). done.
Qed.

(** X9: each call of [once] builds its own closure, so two [once(E, cb)]
    are two registrations that fire once each: on an event without other
    callbacks, for a [cb] that makes no call on the emitter and does not
    raise outside [Exception], the next [emit(E)] calls [cb] twice and
    leaves [E] without callbacks. *)
Theorem two_once_registrations_fire_once_each fns event f args w :
  registered w event = [] → fn_body (fns f) args = [] →
  (∀ e, fn_result (fns f) args = Raise e → is_Exception e = true) →
  registered (snd (once event (Fn f) (snd (once event (Fn f) w)))) event =
    [CallbackOff (closures w) event (Fn f); CallbackOff (S (closures w)) event (Fn f)] ∧
  calls_of (Fn f)
    (trace (snd (emit fns event args
                   (snd (once event (Fn f) (snd (once event (Fn f) w))))))) =
    calls_of (Fn f) (trace w) + 2 ∧
  registered
    (snd (emit fns event args (snd (once event (Fn f) (snd (once event (Fn f) w))))))
    event = [].
Proof.
  intros Hreg Hbody Hres.
  set (w2 := snd (once event (Fn f) (snd (once event (Fn f) w)))).
  assert (Hw2 : registered w2 event =
            [CallbackOff (closures w) event (Fn f);
             CallbackOff (S (closures w)) event (Fn f)]).
  { unfold w2. rewrite !once_unfold. simpl. rewrite !registered_set_events. simpl.
    by rewrite !lookup_insert_eq, Hreg. }
  assert (Htr : trace w2 = trace w) by done.
  split; [done|].
  destruct (dispatch_registered_closure fns (closures w) event f args w2
              [CallbackOff (S (closures w)) event (Fn f)]) as (Hf1 & Hr1 & Hc1);
    [|done|done|].
  { rewrite Hw2. simpl. by rewrite decide_True. }
  destruct (dispatch_registered_closure fns (S (closures w)) event f args
              (snd (dispatch fns args (CallbackOff (closures w) event (Fn f)) w2)) [])
    as (Hf2 & Hr2 & Hc2); [|done|done|].
  { rewrite Hr1. simpl. by rewrite decide_True. }
  rewrite emit_snd, Hw2, !for_each_dispatch_cons by done. simpl.
  split; [|done]. rewrite Hc2, Hc1, Htr. lia.
Qed.

Lemma two_once_registrations_fire_once_each_witness :
  registered (new "EventEmitter") "ready" = [] ∧
  calls_of (Fn 0)
    (trace (snd (emit sample "ready" [VInt 42]
                   (snd (once "ready" (Fn 0)
                           (snd (once "ready" (Fn 0) (new "EventEmitter")))))))) = 2.
Proof.
  split; [reflexivity|].
  pose proof (two_once_registrations_fire_once_each sample "ready" 0 [VInt 42]
                (new "EventEmitter") eq_refl eq_refl) as H.
  destruct H as (_ & H & _); [by intros e|]. exact H.
Defined.

(** ** Tasks and the pool *)

Lemma dispatch_sync_frame fns args cb w :
  iscoroutinefunction fns cb = false →
  loop (self (snd (dispatch fns args cb w))) = loop (self w) ∧
  _task_pool (self (snd (dispatch fns args cb w))) = _task_pool (self w) ∧
  class_name (self (snd (dispatch fns args cb w))) = class_name (self w).
Proof.
  intros H. rewrite dispatch_sync by done.
  assert (Hl : stable (λ w, loop (self w)) (invoke fns cb args))
    by (by apply invoke_stable; auto with stable).
  assert (Hp : stable (λ w, _task_pool (self w)) (invoke fns cb args))
    by (by apply invoke_stable; auto with stable).
  assert (Hc : stable (λ w, class_name (self w)) (invoke fns cb args))
    by (by apply invoke_stable; auto with stable).
  specialize (Hl w). specialize (Hp w). specialize (Hc w).
  destruct (invoke fns cb args w) as [[|e] ?]; [done|]. by destruct (is_Exception e).
Qed.

Lemma new_tasks_nil fns args w : new_tasks fns args [] w = [].
Proof. unfold new_tasks. by destruct (closed (loop (self w))). Qed.

Lemma new_tasks_cons fns args cb l w :
  new_tasks fns args (cb :: l) w = new_tasks fns args [cb] w ++ new_tasks fns args l w.
Proof.
  unfold new_tasks. destruct (closed (loop (self w))); [done|]. simpl.
  by destruct (schedulable fns args cb).
Qed.

Lemma new_tasks_same fns args l w w' :
  closed (loop (self w')) = closed (loop (self w)) →
  class_name (self w') = class_name (self w) →
  new_tasks fns args l w' = new_tasks fns args l w.
Proof. unfold new_tasks. by intros -> ->. Qed.

Lemma new_tasks_sync fns args cb w :
  iscoroutinefunction fns cb = false → new_tasks fns args [cb] w = [].
Proof.
  intros H. unfold new_tasks. destruct (closed (loop (self w))); [done|].
  destruct cb as [f|]; [|done]. simpl in *. by rewrite H.
Qed.

(** What one turn does to the loop and to the pool. *)
Lemma dispatch_tasks fns args cb w :
  tasks (loop (self (snd (dispatch fns args cb w)))) =
    tasks (loop (self w)) ++ new_tasks fns args [cb] w ∧
  ready (loop (self (snd (dispatch fns args cb w)))) = ready (loop (self w)) ∧
  closed (loop (self (snd (dispatch fns args cb w)))) = closed (loop (self w)) ∧
  class_name (self (snd (dispatch fns args cb w))) = class_name (self w) ∧
  (∀ t, t ∈ _task_pool (self (snd (dispatch fns args cb w))) ↔
        t ∈ _task_pool (self w) ∨
        length (tasks (loop (self w))) ≤ t <
          length (tasks (loop (self (snd (dispatch fns args cb w)))))).
Proof.
  assert (Hnone : ∀ w', tasks (loop (self w')) = tasks (loop (self w)) →
            _task_pool (self w') = _task_pool (self w) →
            ∀ t, t ∈ _task_pool (self w') ↔
                 t ∈ _task_pool (self w) ∨
                 length (tasks (loop (self w))) ≤ t < length (tasks (loop (self w')))).
  { intros w' -> ->. intros t. split; [by left | intros [?|?]; [done|lia]]. }
  destruct (iscoroutinefunction fns cb) eqn:Hco.
  - apply iscoroutinefunction_Fn in Hco as (f & -> & Ha).
    rewrite dispatch_async by done. unfold new_tasks. simpl. rewrite Ha. simpl.
    destruct (fn_accepts (fns f) args); simpl.
    2: { destruct (closed (loop (self w))); rewrite app_nil_r;
         (split_and!; [done..|by apply Hnone]). }
    destruct (fn_name (fns f)) as [name|] eqn:En; simpl.
    2: { destruct (closed (loop (self w))); rewrite app_nil_r;
         (split_and!; [done..|by apply Hnone]). }
    destruct (closed (loop (self w))) eqn:Ec; simpl.
    + rewrite app_nil_r. split_and!; [done..|by apply Hnone].
    + rewrite ?bool_decide_true by (by eexists). simpl. split_and!; try done.
      intros t. rewrite elem_of_union, elem_of_singleton, length_app. simpl.
      intuition lia.
  - destruct (dispatch_sync_frame fns args cb w Hco) as (Hl & Hp & Hc).
    rewrite (new_tasks_sync fns args cb w Hco), app_nil_r.
    split_and!; [by rewrite Hl..|done|]. apply Hnone; [by rewrite Hl | done].
Qed.

Lemma for_each_dispatch_tasks fns args l w :
  tasks (loop (self (snd (for_each l (dispatch fns args) w)))) =
    tasks (loop (self w)) ++ new_tasks fns args (take (called fns args l w) l) w ∧
  ready (loop (self (snd (for_each l (dispatch fns args) w)))) = ready (loop (self w)) ∧
  closed (loop (self (snd (for_each l (dispatch fns args) w)))) = closed (loop (self w)) ∧
  class_name (self (snd (for_each l (dispatch fns args) w))) = class_name (self w) ∧
  (∀ t, t ∈ _task_pool (self (snd (for_each l (dispatch fns args) w))) ↔
        t ∈ _task_pool (self w) ∨
        length (tasks (loop (self w))) ≤ t <
          length (tasks (loop (self (snd (for_each l (dispatch fns args) w)))))).
Proof.
  revert w. induction l as [|cb l IH]; intros w.
  - simpl. rewrite new_tasks_nil, app_nil_r. split_and!; try done.
    intros t; split; [by left | intros [?|?]; [done|lia]].
  - destruct (dispatch_tasks fns args cb w) as (Ht & Hr & Hc & Hn & Hp).
    destruct (fst (dispatch fns args cb w)) as [[]|e] eqn:E.
    + rewrite for_each_dispatch_cons, called_cons by done.
      destruct (IH (snd (dispatch fns args cb w))) as (Ht' & Hr' & Hc' & Hn' & Hp').
      simpl take. rewrite new_tasks_cons. split_and!.
      * rewrite Ht', Ht, (new_tasks_same _ _ _ w (snd (dispatch fns args cb w))) by done.
        by rewrite <- app_assoc.
      * by rewrite Hr'.
      * by rewrite Hc'.
      * by rewrite Hn'.
      * intros t. rewrite Hp', Hp, Ht', Ht, !length_app. intuition lia.
    + rewrite (for_each_dispatch_cons_raise _ _ _ _ _ _ E),
        (called_cons_raise _ _ _ _ _ _ E). simpl. rewrite take_0. done.
Qed.

Lemma new_tasks_pending fns args l w tk : tk ∈ new_tasks fns args l w → task_st tk = Pending
  ∧ task_callbacks tk = [PoolDiscard].
Proof.
  unfold new_tasks. destruct (closed (loop (self w))); [by intros ?%elem_of_nil|].
  intros (f & -> & _)%list_elem_of_fmap. done.
Qed.

(** *** The pool keeps what has not finished *)

Ltac unfold_tracked :=
  unfold tracked, pool_covers_pending, pool_entries_known, discard_on_done,
    queued_are_done, pending, discard_queued in *.

Lemma tracked_same w w' :
  loop (self w') = loop (self w) → _task_pool (self w') = _task_pool (self w) →
  tracked w → tracked w'.
Proof. intros Hl Hp H. unfold_tracked. by rewrite Hl, Hp. Qed.

Lemma tracked_stable {X} (m : M X) w :
  stable (λ w, loop (self w)) m → stable (λ w, _task_pool (self w)) m →
  tracked w → tracked (snd (m w)).
Proof. intros Hl Hp. apply tracked_same; [apply Hl | apply Hp]. Qed.

Lemma tracked_new cls : tracked (new cls).
Proof.
  unfold_tracked. simpl. split_and!.
  - by intros t (tk & ? & _).
  - by intros t ?%elem_of_empty.
  - done.
  - by intros t ?%elem_of_nil.
Qed.

(** Tasks added at the end of the loop's list, pending and with the hook,
    their handles added to the pool. *)
Lemma tracked_grow w w' new :
  tasks (loop (self w')) = tasks (loop (self w)) ++ new →
  ready (loop (self w')) = ready (loop (self w)) →
  closed (loop (self w')) = closed (loop (self w)) →
  (∀ tk, tk ∈ new → task_st tk = Pending ∧ task_callbacks tk = [PoolDiscard]) →
  (∀ t, t ∈ _task_pool (self w') ↔
        t ∈ _task_pool (self w) ∨
        length (tasks (loop (self w))) ≤ t < length (tasks (loop (self w')))) →
  tracked w → tracked w'.
Proof.
  intros Ht Hr Hc Hnew Hp (H1 & H2 & H3 & H4). unfold_tracked.
  rewrite Hr, Hc. split_and!.
  - intros t (tk & Htk & Hst). apply Hp. rewrite Ht in Htk |- *.
    apply lookup_app_Some in Htk as [Htk|[Hle Htk]].
    + left. apply H1. by exists tk.
    + right. apply lookup_lt_Some in Htk. rewrite length_app. lia.
  - intros t [Hin|Hnewt]%Hp.
    + destruct (H2 t Hin) as [Hlt Hor]. rewrite Ht, length_app. split; [lia|].
      destruct Hor as [(tk & Htk & Hst)|Hor]; [|by right].
      left. exists tk. split; [|done]. by apply lookup_app_l_Some.
    + split; [lia|]. left. rewrite Ht in Hnewt |- *. rewrite length_app in Hnewt.
      destruct (lookup_lt_is_Some_2 new (t - length (tasks (loop (self w)))))
        as [tk Htk]; [lia|].
      exists tk. split.
      * rewrite lookup_app_r by lia. done.
      * apply (Hnew tk). by eapply list_elem_of_lookup_2.
  - intros t tk. rewrite Ht. intros [Htk|[Hle Htk]]%lookup_app_Some Hst.
    + by apply (H3 t).
    + apply (Hnew tk). by eapply list_elem_of_lookup_2.
  - intros t Hq. destruct (H4 t Hq) as (tk & Htk & Hst). exists tk.
    split; [|done]. rewrite Ht. by apply lookup_app_l_Some.
Qed.

Lemma dispatch_tracked fns args cb w :
  tracked w → tracked (snd (dispatch fns args cb w)).
Proof.
  destruct (dispatch_tasks fns args cb w) as (Ht & Hr & Hc & _ & Hp).
  apply (tracked_grow w _ (new_tasks fns args [cb] w)); try done.
  intros tk. apply new_tasks_pending.
Qed.

Lemma emit_tasks fns event args w :
  tasks (loop (self (snd (emit fns event args w)))) =
    tasks (loop (self w)) ++
    new_tasks fns args
      (take (called fns args (registered w event) w) (registered w event)) w ∧
  ready (loop (self (snd (emit fns event args w)))) = ready (loop (self w)) ∧
  closed (loop (self (snd (emit fns event args w)))) = closed (loop (self w)) ∧
  (∀ t, t ∈ _task_pool (self (snd (emit fns event args w))) ↔
        t ∈ _task_pool (self w) ∨
        length (tasks (loop (self w))) ≤ t <
          length (tasks (loop (self (snd (emit fns event args w)))))).
Proof.
  rewrite emit_snd.
  destruct (for_each_dispatch_tasks fns args (registered w event) w)
    as (Ht & Hr & Hc & _ & Hp).
  done.
Qed.

Lemma emit_tracked fns event args w : tracked w → tracked (snd (emit fns event args w)).
Proof.
  destruct (emit_tasks fns event args w) as (Ht & Hr & Hc & Hp).
  eapply (tracked_grow w); try done. intros tk. apply new_tasks_pending.
Qed.

(** The loop finishes a pending task. *)
Lemma run_task_pending fns t tk w :
  tasks (loop (self w)) !! t = Some tk → task_st tk = Pending →
  closed (loop (self w)) = false →
  run_task fns t w =
    (leaves_loop (fst (run_body fns (task_fn tk) (task_args tk) w)),
     set_loop (finish t (fst (run_body fns (task_fn tk) (task_args tk) w)))
       (snd (run_body fns (task_fn tk) (task_args tk) w))).
Proof.
  intros Htk Hst Hc. unfold run_task, bind, get. simpl. rewrite Hc, Htk, Hst.
  by destruct (run_body fns (task_fn tk) (task_args tk) w) as [r w1].
Qed.

Lemma run_task_idle fns t w :
  ¬ pending w t ∨ closed (loop (self w)) = true → run_task fns t w = (Ret tt, w).
Proof.
  intros Hn. unfold run_task, bind, get. simpl.
  destruct (closed (loop (self w))); [done|].
  destruct (tasks (loop (self w)) !! t) as [tk|] eqn:Htk; [|done].
  destruct (task_st tk) eqn:Hst; try done.
  destruct Hn as [Hn|]; [|done]. exfalso. apply Hn. by exists tk.
Qed.

Lemma settle_not_pending r : settle r ≠ Pending.
Proof. destruct r as [v|[]]; done. Qed.

Lemma free_asyncio_log : registry_free asyncio_log.
Proof. by split. Qed.

Lemma run_task_finishes fns t tk w :
  tasks (loop (self w)) !! t = Some tk → task_st tk = Pending →
  closed (loop (self w)) = false →
  tasks (loop (self (snd (run_task fns t w)))) =
    <[t := done_task (fst (run_body fns (task_fn tk) (task_args tk) w)) tk]>
      (tasks (loop (self w))) ∧
  ready (loop (self (snd (run_task fns t w)))) =
    ready (loop (self w)) ++ map (λ c, (c, t)) (task_callbacks tk) ∧
  closed (loop (self (snd (run_task fns t w)))) = false ∧
  _task_pool (self (snd (run_task fns t w))) = _task_pool (self w) ∧
  stderr (snd (run_task fns t w)) = stderr w ∧
  asyncio_log (snd (run_task fns t w)) = asyncio_log w.
Proof.
  intros Htk Hst Hc. rewrite (run_task_pending _ _ _ _ Htk Hst Hc). simpl.
  pose proof (stable_run_body (λ w, loop (self w)) free_loop fns (task_fn tk)
                (task_args tk) w) as Hl.
  pose proof (stable_run_body (λ w, _task_pool (self w)) free_task_pool fns (task_fn tk)
                (task_args tk) w) as Hp.
  pose proof (stable_run_body stderr free_stderr fns (task_fn tk) (task_args tk) w) as He.
  pose proof (stable_run_body asyncio_log free_asyncio_log fns (task_fn tk)
                (task_args tk) w) as Hal.
  simpl in *. rewrite Hl, Hp, He, Hal. unfold finish. rewrite Htk. done.
Qed.

Lemma run_task_tracked fns t w : tracked w → tracked (snd (run_task fns t w)).
Proof.
  intros Hw.
  destruct (closed (loop (self w))) eqn:Hc; [by rewrite run_task_idle by (by right)|].
  destruct (tasks (loop (self w)) !! t) as [tk|] eqn:Htk.
  2: { rewrite run_task_idle; [done|]. left. intros (tk & ? & _). congruence. }
  destruct (task_st tk) eqn:Hst.
  2,3: rewrite run_task_idle; [done|]; left; intros (tk' & ? & ?); congruence.
  destruct (run_task_finishes fns t tk w Htk Hst Hc) as (Ht & Hr & Hcl & Hp & _).
  destruct Hw as (H1 & H2 & H3 & H4). unfold_tracked.
  rewrite Ht, Hr, Hcl, Hp, (H3 _ _ Htk Hst). simpl.
  assert (Hlt : t < length (tasks (loop (self w)))) by (by eapply lookup_lt_Some).
  split_and!.
  - intros t' (tk' & Htk' & Hst'). apply H1.
    destruct (decide (t = t')) as [<-|Hne].
    + rewrite list_lookup_insert_eq in Htk' by done. injection Htk' as <-.
      simpl in Hst'. by apply settle_not_pending in Hst'.
    + rewrite list_lookup_insert_ne in Htk' by done. by exists tk'.
  - intros t' Hin. destruct (H2 t' Hin) as [Hlt' Hor]. rewrite length_insert.
    split; [done|]. destruct (decide (t = t')) as [<-|Hne].
    + right. left. rewrite elem_of_app, list_elem_of_singleton. by right.
    + destruct Hor as [(tk' & Htk' & Hst')|[Hq|Hcl']].
      * left. exists tk'. by rewrite list_lookup_insert_ne.
      * right. left. rewrite elem_of_app. by left.
      * congruence.
  - intros t' tk'. destruct (decide (t = t')) as [<-|Hne].
    + rewrite list_lookup_insert_eq by done. intros [= <-]. simpl.
      by intros ?%settle_not_pending.
    + rewrite list_lookup_insert_ne by done. apply H3.
  - intros t' Hq. destruct (decide (t = t')) as [<-|Hne].
    + eexists. rewrite list_lookup_insert_eq by done. split; [done|].
      simpl. apply settle_not_pending.
    + rewrite list_lookup_insert_ne by done. apply H4.
      apply elem_of_app in Hq as [Hq|Hq]; [done|].
      apply list_elem_of_singleton in Hq. congruence.
Qed.

Lemma loop_turn_unfold w :
  loop_turn w =
    match ready (loop (self w)) with
    | [] => (Ret tt, w)
    | (PoolDiscard, t) :: rest =>
        (Ret tt, set_task_pool (λ p, p ∖ {[t]}) (set_loop (set_ready (λ _, rest)) w))
    end.
Proof.
  unfold loop_turn, bind, get. simpl.
  by destruct (ready (loop (self w))) as [|[[] t] rest].
Qed.

Lemma loop_turn_tracked w : tracked w → tracked (snd (loop_turn w)).
Proof.
  intros (H1 & H2 & H3 & H4). rewrite loop_turn_unfold.
  destruct (ready (loop (self w))) as [|[[] t] rest] eqn:Er; [done|].
  unfold_tracked. simpl. rewrite Er in H2, H4. split_and!.
  - intros t' Hpend. rewrite elem_of_difference, elem_of_singleton.
    split; [by apply H1|]. intros ->.
    destruct Hpend as (tk & Htk & Hst).
    destruct (H4 t) as (tk' & Htk' & Hst'); [by left|]. congruence.
  - intros t' [Hin Hne]%elem_of_difference. rewrite elem_of_singleton in Hne.
    destruct (H2 t' Hin) as [Hlt Hor]. split; [done|].
    destruct Hor as [?|[Hq|?]]; [by left| |by right; right].
    right. left. apply elem_of_cons in Hq as [[= ?]|Hq]; done.
  - done.
  - intros t' Hq. apply H4. by right.
Qed.

Lemma close_loop_tracked w : tracked w → tracked (snd (close_loop w)).
Proof.
  intros (H1 & H2 & H3 & H4). unfold_tracked. simpl. split_and!; try done.
  - intros t Hin. destruct (H2 t Hin) as [Hlt _]. split; [done|]. by right; right.
  - by intros t ?%elem_of_nil.
Qed.

(** What collecting a task changes: at most the mark on that task, and the
    report of asyncio. *)
Lemma collect_frame t w :
  (tasks (loop (self (snd (collect t w)))) = tasks (loop (self w)) ∨
   tasks (loop (self (snd (collect t w)))) = alter mark_collected t (tasks (loop (self w)))) ∧
  ready (loop (self (snd (collect t w)))) = ready (loop (self w)) ∧
  closed (loop (self (snd (collect t w)))) = closed (loop (self w)) ∧
  _task_pool (self (snd (collect t w))) = _task_pool (self w) ∧
  stderr (snd (collect t w)) = stderr w ∧
  _events (self (snd (collect t w))) = _events (self w) ∧
  fst (collect t w) = Ret tt.
Proof.
  unfold collect, bind, get, modify. simpl.
  destruct (tasks (loop (self w)) !! t) as [tk|]; [|by split_and!; try left].
  destruct (task_st tk) as [|[v|e]|]; try (by split_and!; try left);
    destruct (unreferenced w t && negb (task_collected tk));
    simpl; split_and!; try done; by (left + right).
Qed.

Lemma lookup_mark_collected (t t' : nat) (l : list task) :
  alter mark_collected t l !! t' =
    (if decide (t = t') then mark_collected else id) <$> l !! t'.
Proof.
  case_decide as E.
  - subst. by rewrite list_lookup_alter_eq.
  - rewrite list_lookup_alter_ne by done. by rewrite option_fmap_id.
Qed.

Lemma collect_tracked t w : tracked w → tracked (snd (collect t w)).
Proof.
  destruct (collect_frame t w) as (Ht & Hr & Hc & Hp & _).
  destruct Ht as [Ht|Ht].
  { apply tracked_same; [|done].
    destruct (loop (self (snd (collect t w)))), (loop (self w)). simpl in *. congruence. }
  intros (H1 & H2 & H3 & H4). unfold_tracked. rewrite Ht, Hr, Hc, Hp.
  assert (Hsame : ∀ t' tk', alter mark_collected t (tasks (loop (self w))) !! t' = Some tk' →
            ∃ tk, tasks (loop (self w)) !! t' = Some tk ∧ task_st tk' = task_st tk ∧
                  task_callbacks tk' = task_callbacks tk).
  { intros t' tk'. rewrite lookup_mark_collected.
    destruct (tasks (loop (self w)) !! t') as [tk|]; [|done]. simpl.
    intros [= <-]. exists tk. by case_decide. }
  assert (Hback : ∀ t' tk, tasks (loop (self w)) !! t' = Some tk →
            ∃ tk', alter mark_collected t (tasks (loop (self w))) !! t' = Some tk' ∧
                   task_st tk' = task_st tk).
  { intros t' tk Htk. rewrite lookup_mark_collected, Htk. simpl.
    eexists; split; [done|]. by case_decide. }
  split_and!.
  - intros t' (tk' & (tk & Htk & Hst & _)%Hsame & Hp'). apply H1. exists tk.
    split; [done|congruence].
  - intros t' Hin. destruct (H2 t' Hin) as [Hlt Hor]. rewrite length_alter.
    split; [done|]. destruct Hor as [(tk & Htk & Hst)|Hor]; [|by right].
    left. destruct (Hback _ _ Htk) as (tk' & ? & ?). exists tk'. split; [done|congruence].
  - intros t' tk' (tk & Htk & Hst & Hcb)%Hsame Hp'. rewrite Hcb. apply (H3 t' tk); congruence.
  - intros t' Hq. destruct (H4 t' Hq) as (tk & Htk & Hst).
    destruct (Hback _ _ Htk) as (tk' & ? & ?). exists tk'. split; [done|congruence].
Qed.

Lemma perform_tracked fns a w : tracked w → tracked (perform fns a w).
Proof.
  destruct a as [event cb|event cb|event cb|event args|t| | |t]; unfold perform.
  - apply (tracked_stable (on event cb)); apply stable_on;
      [apply free_loop | apply free_task_pool].
  - apply (tracked_stable (off event cb)); apply stable_off;
      [apply free_loop | apply free_task_pool].
  - apply (tracked_stable (once event cb)); apply stable_once;
      [apply free_loop | apply free_task_pool].
  - apply emit_tracked.
  - apply run_task_tracked.
  - apply loop_turn_tracked.
  - apply close_loop_tracked.
  - apply collect_tracked.
Qed.

Lemma reachable_tracked fns w : reachable fns w → tracked w.
Proof.
  induction 1 as [cls|a w _ IH]; [apply tracked_new | by apply perform_tracked].
Qed.

Lemma reachable_perform_all fns acts w :
  reachable fns w → reachable fns (foldl (λ w a, perform fns a w) w acts).
Proof.
  revert w. induction acts as [|a acts IH]; intros w Hw; [done|].
  simpl. apply IH. by constructor.
Qed.

Lemma reachable_after fns acts : reachable fns (after fns acts).
Proof. apply reachable_perform_all. constructor. Qed.

(** A turn of [emit] on a coroutine function starts no body. *)
Lemma dispatch_async_runs fns args cb w f :
  iscoroutinefunction fns cb = true →
  runs_of f (trace (snd (dispatch fns args cb w))) = runs_of f (trace w).
Proof.
  intros (g & -> & Ha)%iscoroutinefunction_Fn. rewrite dispatch_async by done. simpl.
  destruct (fn_accepts (fns g) args); [|simpl; rewrite runs_of_app; simpl; lia].
  destruct (fn_name (fns g)); [|simpl; rewrite runs_of_app; simpl; lia].
  destruct (closed (loop (self w))); simpl; rewrite runs_of_app; simpl; lia.
Qed.

(** What such a turn prints: nothing when it creates the task, and else the
    error of the call, of the name or of the loop. *)
Lemma dispatch_async_stderr fns args cb w :
  iscoroutinefunction fns cb = true →
  (stderr (snd (dispatch fns args cb w)) = stderr w ∧
   length (tasks (loop (self (snd (dispatch fns args cb w))))) =
     S (length (tasks (loop (self w))))) ∨
  (∃ e, e ∈ [TypeError; AttributeError; RuntimeError] ∧
        stderr (snd (dispatch fns args cb w)) = stderr w ++ [e] ∧
        tasks (loop (self (snd (dispatch fns args cb w)))) = tasks (loop (self w))).
Proof.
  intros (g & -> & Ha)%iscoroutinefunction_Fn. rewrite dispatch_async by done. simpl.
  destruct (fn_accepts (fns g) args).
  2: { right. exists TypeError. split; [set_solver|done]. }
  destruct (fn_name (fns g)).
  2: { right. exists AttributeError. split; [set_solver|done]. }
  destruct (closed (loop (self w))).
  - right. exists RuntimeError. split; [set_solver|done].
  - left. simpl. split; [done|]. rewrite length_app. simpl. lia.
Qed.

Lemma for_each_dispatch_async fns args l w :
  (∀ cb, cb ∈ l → iscoroutinefunction fns cb = true) →
  fst (for_each l (dispatch fns args) w) = Ret tt ∧
  ∀ f, runs_of f (trace (snd (for_each l (dispatch fns args) w))) = runs_of f (trace w).
Proof.
  revert w. induction l as [|cb l IH]; intros w Hl; [done|].
  assert (Hcb : iscoroutinefunction fns cb = true) by (apply Hl; by left).
  rewrite for_each_dispatch_cons by (by apply dispatch_async_returns).
  destruct (IH (snd (dispatch fns args cb w))) as [H1 H2].
  { intros c Hc. apply Hl. by right. }
  split; [done|]. intros f. by rewrite H2, dispatch_async_runs.
Qed.

(** C9, as it is stated, fails: [fetch] is registered and emitted, and the
    loop runs its task to the end.  The task has finished, and its handle is
    still in the pool: the loop has only queued the call of
    [self._task_pool.discard]. *)
Lemma finished_task_still_in_pool : ¬ pool_is_the_pending_set sample.
Proof.
  intros H.
  destruct (H (after sample [DoOn "ready" (Fn 1); DoEmit "ready" []; LoopRuns 0]) 0
              (reachable_after _ _)) as [H1 _].
  destruct H1 as (tk & Htk & Hst).
  - apply (bool_decide_unpack _). by vm_compute.
  - vm_compute in Htk. injection Htk as <-. discriminate.
Qed.

(** C9, amended: in every state the emitter reaches, a task that has not
    finished is in the pool, and what is in the pool is a task of the loop
    that has not finished, or that has finished and whose discard the loop
    has still to call, or the loop was closed.  A pass of [emit] creates
    the tasks of the coroutine functions it gets to, when their call, their
    name and the loop allow it, and adds exactly their handles, which are new
    and pending.  When the loop finishes a task the handle stays in the pool
    and the discard is queued; the turn of the loop that makes the queued
    call takes out that handle and no other.  [on], [off], [once], the
    collection of a task and the closing of the loop leave the pool as it
    is. *)
Theorem task_pool_holds_tasks_until_done fns w :
  reachable fns w →
  (∀ t, pending w t → t ∈ _task_pool (self w)) ∧
  (∀ t, t ∈ _task_pool (self w) →
        t < length (tasks (loop (self w))) ∧
        (pending w t ∨ discard_queued w t ∨ closed (loop (self w)) = true)) ∧
  (∀ event args,
     tasks (loop (self (snd (emit fns event args w)))) =
       tasks (loop (self w)) ++
       new_tasks fns args
         (take (called fns args (registered w event) w) (registered w event)) w ∧
     (∀ t, t ∈ _task_pool (self (snd (emit fns event args w))) ↔
           t ∈ _task_pool (self w) ∨
           length (tasks (loop (self w))) ≤ t <
             length (tasks (loop (self (snd (emit fns event args w)))))) ∧
     (∀ t, length (tasks (loop (self w))) ≤ t <
             length (tasks (loop (self (snd (emit fns event args w))))) →
           pending (snd (emit fns event args w)) t ∧ t ∉ _task_pool (self w))) ∧
  (∀ t, pending w t → closed (loop (self w)) = false →
     ¬ pending (snd (run_task fns t w)) t ∧
     _task_pool (self (snd (run_task fns t w))) = _task_pool (self w) ∧
     ready (loop (self (snd (run_task fns t w)))) =
       ready (loop (self w)) ++ [(PoolDiscard, t)]) ∧
  (∀ t, ¬ pending w t ∨ closed (loop (self w)) = true →
     snd (run_task fns t w) = w) ∧
  (∀ t rest, ready (loop (self w)) = (PoolDiscard, t) :: rest →
     _task_pool (self (snd (loop_turn w))) = _task_pool (self w) ∖ {[t]} ∧
     ready (loop (self (snd (loop_turn w)))) = rest) ∧
  (ready (loop (self w)) = [] → snd (loop_turn w) = w) ∧
  (∀ event cb,
     _task_pool (self (snd (on event cb w))) = _task_pool (self w) ∧
     _task_pool (self (snd (off event cb w))) = _task_pool (self w) ∧
     _task_pool (self (snd (once event cb w))) = _task_pool (self w)) ∧
  (∀ t, _task_pool (self (snd (collect t w))) = _task_pool (self w)) ∧
  _task_pool (self (snd (close_loop w))) = _task_pool (self w).
Proof.
  intros Hw. pose proof (reachable_tracked fns w Hw) as (H1 & H2 & H3 & H4).
  split_and!.
  - exact H1.
  - exact H2.
  - intros event args.
    destruct (emit_tasks fns event args w) as (Ht & Hr & Hc & Hp).
    split_and!; [done..|]. intros t Ht'. split.
    + unfold pending. rewrite Ht in Ht' |- *. rewrite length_app in Ht'.
      destruct (lookup_lt_is_Some_2
                  (new_tasks fns args
                     (take (called fns args (registered w event) w) (registered w event)) w)
                  (t - length (tasks (loop (self w))))) as [tk Htk]; [lia|].
      exists tk. split; [by rewrite lookup_app_r by lia|].
      eapply new_tasks_pending. by eapply list_elem_of_lookup_2.
    + intros Hin. apply H2 in Hin as [Hlt _]. lia.
  - intros t (tk & Htk & Hst) Hc.
    destruct (run_task_finishes fns t tk w Htk Hst Hc) as (Ht & Hr & _ & Hp & _).
    split_and!; [|done|by rewrite Hr, (H3 _ _ Htk Hst)].
    intros (tk' & Htk' & Hst'). rewrite Ht in Htk'.
    rewrite list_lookup_insert_eq in Htk' by (by eapply lookup_lt_Some).
    injection Htk' as <-. simpl in Hst'. by apply settle_not_pending in Hst'.
  - intros t Hn. by rewrite run_task_idle.
  - intros t rest Hr. rewrite loop_turn_unfold, Hr. done.
  - intros Hr. rewrite loop_turn_unfold, Hr. done.
  - intros event cb. split_and!.
    + apply (stable_on (λ w, _task_pool (self w)) free_task_pool).
    + apply (stable_off (λ w, _task_pool (self w)) free_task_pool).
    + apply (stable_once (λ w, _task_pool (self w)) free_task_pool).
  - intros t. by destruct (collect_frame t w) as (_ & _ & _ & Hp & _).
  - done.
Qed.

Lemma task_pool_holds_tasks_until_done_witness :
  pending (snd (emit sample "ready" [VInt 42] (after sample [DoOn "ready" (Fn 1)]))) 0 ∧
  0 ∈ _task_pool
        (self (snd (emit sample "ready" [VInt 42] (after sample [DoOn "ready" (Fn 1)])))) ∧
  0 ∈ _task_pool
        (self (snd (run_task sample 0
                      (after sample [DoOn "ready" (Fn 1); DoEmit "ready" [VInt 42]])))) ∧
  0 ∉ _task_pool
        (self (snd (loop_turn
                      (after sample [DoOn "ready" (Fn 1); DoEmit "ready" [VInt 42];
                                     LoopRuns 0])))).
Proof.
  pose proof (task_pool_holds_tasks_until_done sample
                (after sample [DoOn "ready" (Fn 1)]) (reachable_after _ _))
    as (_ & _ & He & _).
  destruct (He "ready" [VInt 42]) as (_ & Hp & Hnew).
  assert (Hlen : 0 ≤ 0 <
            length (tasks (loop (self (snd (emit sample "ready" [VInt 42]
                                              (after sample [DoOn "ready" (Fn 1)])))))))
    by (vm_compute; lia).
  split; [exact (proj1 (Hnew 0 Hlen))|].
  split; [exact (proj2 (Hp 0) (or_intror Hlen))|].
  pose proof (task_pool_holds_tasks_until_done sample
                (after sample [DoOn "ready" (Fn 1); DoEmit "ready" [VInt 42]])
                (reachable_after _ _))
    as (Hin & _ & _ & Hrun & _).
  assert (Hpend : pending (after sample [DoOn "ready" (Fn 1); DoEmit "ready" [VInt 42]]) 0)
    by (eexists; split; reflexivity).
  split.
  - rewrite (proj1 (proj2 (Hrun 0 Hpend eq_refl))). exact (Hin 0 Hpend).
  - pose proof (task_pool_holds_tasks_until_done sample
                  (after sample [DoOn "ready" (Fn 1); DoEmit "ready" [VInt 42]; LoopRuns 0])
                  (reachable_after _ _))
      as (_ & _ & _ & _ & _ & Hturn & _).
    rewrite (proj1 (Hturn 0 [] eq_refl)).
    intros [_ Hn]%elem_of_difference. apply Hn. by apply elem_of_singleton.
Defined.

(** C4, as it is stated, fails: [fetch] is registered and emitted, the loop
    runs its task, whose body raises, makes the queued discard, and the task
    is collected.  Nothing was printed by [traceback.print_exc]: the
    exception went to asyncio's report of exceptions never retrieved. *)
Lemma failed_task_is_not_printed : ¬ task_failures_printed sample.
Proof.
  intros H.
  specialize (H (after sample [DoOn "ready" (Fn 1); DoEmit "ready" []; LoopRuns 0;
                               LoopTurn; Collects 0])
                0
                {| task_name := "MB_EE_EventEmitter_fetch"; task_fn := 1; task_args := [];
                   task_callbacks := []; task_st := Finished (Raise (UserError 7));
                   task_collected := true |}
                (UserError 7) (reachable_after _ _) eq_refl eq_refl eq_refl).
  vm_compute in H. by apply elem_of_nil in H.
Qed.

(** C4, amended: the exception that ends the body of a task is kept in the
    task when the loop runs it ([CancelledError] leaves the task cancelled,
    [KeyboardInterrupt] and [SystemExit] are also raised again out of the
    loop); the emitter prints nothing for it, and asyncio reports nothing
    then.  It is asyncio that reports the exception, to its own handler,
    when the finished task is collected without anyone having asked for its
    result; [traceback.print_exc] is not called.  In [emit] the turn of a
    coroutine function returns, starts no body, and prints only what the
    call, the name or [create_task] raised, in which case there is no task;
    so a pass over coroutine functions only returns [None]. *)
Theorem task_exception_stays_in_task fns t tk w :
  tasks (loop (self w)) !! t = Some tk → task_st tk = Pending →
  closed (loop (self w)) = false →
  (∃ tk', tasks (loop (self (snd (run_task fns t w)))) !! t = Some tk' ∧
          task_st tk' = settle (fst (run_body fns (task_fn tk) (task_args tk) w))) ∧
  fst (run_task fns t w) = leaves_loop (fst (run_body fns (task_fn tk) (task_args tk) w)) ∧
  stderr (snd (run_task fns t w)) = stderr w ∧
  asyncio_log (snd (run_task fns t w)) = asyncio_log w ∧
  (∀ w' tk' e,
     tasks (loop (self w')) !! t = Some tk' → task_st tk' = Finished (Raise e) →
     task_collected tk' = false → unreferenced w' t = true →
     stderr (snd (collect t w')) = stderr w' ∧
     asyncio_log (snd (collect t w')) = asyncio_log w' ++ [e]) ∧
  (∀ args cb w0,
     iscoroutinefunction fns cb = true →
     fst (dispatch fns args cb w0) = Ret tt ∧
     (∀ f, runs_of f (trace (snd (dispatch fns args cb w0))) = runs_of f (trace w0)) ∧
     ((stderr (snd (dispatch fns args cb w0)) = stderr w0 ∧
       length (tasks (loop (self (snd (dispatch fns args cb w0))))) =
         S (length (tasks (loop (self w0))))) ∨
      (∃ e, e ∈ [TypeError; AttributeError; RuntimeError] ∧
            stderr (snd (dispatch fns args cb w0)) = stderr w0 ++ [e] ∧
            tasks (loop (self (snd (dispatch fns args cb w0)))) =
              tasks (loop (self w0))))) ∧
  (∀ event args w0,
     (∀ cb, cb ∈ registered w0 event → iscoroutinefunction fns cb = true) →
     fst (emit fns event args w0) = Ret VNone ∧
     ∀ f, runs_of f (trace (snd (emit fns event args w0))) = runs_of f (trace w0)).
Proof.
  intros Htk Hst Hc.
  destruct (run_task_finishes fns t tk w Htk Hst Hc) as (Ht & _ & _ & _ & He & Ha).
  split_and!.
  - exists (done_task (fst (run_body fns (task_fn tk) (task_args tk) w)) tk).
    rewrite Ht. split; [|done].
    apply list_lookup_insert_eq. by eapply lookup_lt_Some.
  - by rewrite (run_task_pending _ _ _ _ Htk Hst Hc).
  - done.
  - done.
  - intros w' tk' e Htk' Hst' Hcol Hun. unfold collect, bind, get, modify. simpl.
    rewrite Htk', Hst', Hun, Hcol. done.
  - intros args cb w0 Hco. split_and!.
    + by apply dispatch_async_returns.
    + intros f. by apply dispatch_async_runs.
    + by apply dispatch_async_stderr.
  - intros event args w0 Hl.
    destruct (for_each_dispatch_async fns args (registered w0 event) w0 Hl) as [H1 H2].
    rewrite emit_unfold. simpl. by rewrite H1.
Qed.

Lemma task_exception_stays_in_task_witness :
  stderr (after sample [DoOn "ready" (Fn 1); DoEmit "ready" [VInt 42]; LoopRuns 0]) = [] ∧
  (∃ tk', tasks (loop (self (after sample [DoOn "ready" (Fn 1); DoEmit "ready" [VInt 42];
                                            LoopRuns 0]))) !! 0 = Some tk' ∧
          task_st tk' = Finished (Raise (UserError 7))) ∧
  asyncio_log (after sample [DoOn "ready" (Fn 1); DoEmit "ready" [VInt 42]; LoopRuns 0;
                             LoopTurn; Collects 0]) = [UserError 7].
Proof.
  pose proof (task_exception_stays_in_task sample 0
                {| task_name := "MB_EE_EventEmitter_fetch"; task_fn := 1;
                   task_args := [VInt 42]; task_callbacks := [PoolDiscard];
                   task_st := Pending; task_collected := false |}
                (after sample [DoOn "ready" (Fn 1); DoEmit "ready" [VInt 42]])
                eq_refl eq_refl eq_refl) as (H1 & _ & H3 & _ & H5 & _).
  split; [exact H3|]. split; [exact H1|].
  exact (proj2 (H5 (after sample [DoOn "ready" (Fn 1); DoEmit "ready" [VInt 42]; LoopRuns 0;
                                  LoopTurn])
                   {| task_name := "MB_EE_EventEmitter_fetch"; task_fn := 1;
                      task_args := [VInt 42]; task_callbacks := [];
                      task_st := Finished (Raise (UserError 7)); task_collected := false |}
                   (UserError 7) eq_refl eq_refl eq_refl eq_refl)).
Defined.

(** X8: the tasks a pass of [emit] creates are those of the coroutine
    functions among the callbacks it gets to whose call takes the arguments
    and that have a name, in list order, and none when the loop is closed;
    when the pass returns these are taken from the whole list.  Each task
    has the name, the arguments, the state and the hook of lines 39 to 44.
    The pool gains the handles of these tasks and nothing else, and the
    queue and the state of the loop are as before. *)
Theorem emit_creates_a_task_per_coroutine_function fns event args w :
  tasks (loop (self (snd (emit fns event args w)))) =
    tasks (loop (self w)) ++
    new_tasks fns args
      (take (called fns args (registered w event) w) (registered w event)) w ∧
  (fst (emit fns event args w) = Ret VNone →
   tasks (loop (self (snd (emit fns event args w)))) =
     tasks (loop (self w)) ++ new_tasks fns args (registered w event) w) ∧
  (∀ tk, tk ∈ new_tasks fns args (registered w event) w →
         closed (loop (self w)) = false ∧
         ∃ f name, Fn f ∈ registered w event ∧ fn_async (fns f) = true ∧
                   fn_accepts (fns f) args = true ∧ fn_name (fns f) = Some name ∧
                   tk = {| task_name := "MB_EE_" +:+ class_name (self w) +:+ "_" +:+ name;
                           task_fn := f; task_args := args;
                           task_callbacks := [PoolDiscard]; task_st := Pending;
                           task_collected := false |}) ∧
  (∀ t, t ∈ _task_pool (self (snd (emit fns event args w))) ↔
        t ∈ _task_pool (self w) ∨
        length (tasks (loop (self w))) ≤ t <
          length (tasks (loop (self (snd (emit fns event args w)))))) ∧
  ready (loop (self (snd (emit fns event args w)))) = ready (loop (self w)) ∧
  closed (loop (self (snd (emit fns event args w)))) = closed (loop (self w)).
Proof.
  destruct (emit_tasks fns event args w) as (Ht & Hr & Hc & Hp).
  split_and!; try done.
  - intros [_ H]%emit_returns. apply for_each_dispatch_returns in H.
    by rewrite Ht, H, firstn_all.
  - intros tk. unfold new_tasks.
    destruct (closed (loop (self w))); [by intros ?%elem_of_nil|].
    intros (f & -> & Hf)%list_elem_of_fmap. split; [done|].
    apply list_elem_of_omap in Hf as (cb & Hcb & Hs).
    destruct cb as [g|]; [|done]. simpl in Hs.
    destruct (fn_async (fns g)) eqn:Ea; [|done].
    destruct (fn_accepts (fns g) args) eqn:Eacc; [|done]. simpl in Hs.
    case_bool_decide as Hn; [|done]. injection Hs as <-.
    destruct Hn as [name Hn]. exists g, name. unfold task_for. rewrite Hn. done.
Qed.

Lemma emit_creates_a_task_per_coroutine_function_witness :
  tasks (loop (self (snd (emit sample "ready" [VInt 1]
                            (after sample [DoOn "ready" (Fn 6); DoOn "ready" (Fn 7);
                                           DoOn "ready" (Fn 1); DoOn "ready" (Fn 0)]))))) =
    [{| task_name := "MB_EE_EventEmitter_fetch"; task_fn := 1; task_args := [VInt 1];
        task_callbacks := [PoolDiscard]; task_st := Pending; task_collected := false |}].
Proof.
  exact (proj1 (proj2 (emit_creates_a_task_per_coroutine_function sample "ready" [VInt 1]
                         (after sample [DoOn "ready" (Fn 6); DoOn "ready" (Fn 7);
                                        DoOn "ready" (Fn 1); DoOn "ready" (Fn 0)])))
               eq_refl).
Defined.
